(** * CreateFastContext: the publish/subscribe store behind the context

    A verification development for [src/CreateFastContext.tsx].

    The file embeds the store created by [useStoreData] (the cell
    [store.current], the registry [subscribers.current] and the three
    closures [get], [set], [subscribe]) together with the guard of
    [useStore], and proves the properties the specification states about
    them.

    Modelling decisions, all taken from the source:

    - a store value is a plain JavaScript object: a finite map from
      property names to values ([gmap string val]); the object spread
      [{ ...store.current, ...value }] of line 35 is a right-biased union;
    - [subscribers.current] is a JavaScript [Set] of functions.  A
      function is identified by its reference ([cbid]); the [Set] keeps
      its entries in insertion order, [delete] empties the slot of the
      entry, [add] appends a slot unless the value is already present, and
      [forEach] walks the slots by index, re-reading the number of slots
      after every call-back (ECMAScript, Set.prototype.forEach).  The
      registry is therefore a list of optional call-back references;
    - a call-back is arbitrary client code.  Its interaction with stores
      is a finite tree of calls of [get], [set], [subscribe] and of the
      unsubscribe closure ([prog]); the body of every call-back is given
      by an environment [env];
    - [set] calls the subscribers, which may call [set] again: the
      interpreter [exec] takes fuel, and every result that says that a
      call returns exhibits enough fuel;
    - every [useStoreData] of a freshly mounted [Provider] allocates its
      own two refs: a world holds a finite map of store instances, and a
      store handle is a key of that map;
    - a world also carries a trace of events (ghost state): the values
      assigned to [store.current], the values returned by [get], and the
      call-backs invoked by the [forEach] of a [set], tagged with the
      nesting depth of that [set]. *)

From Stdlib Require Import ZArith.
From stdpp Require Import gmap strings list fin_maps.

(** ** Store values *)

(** Values held in the fields of a store value.  [VObj] is a nested
    aggregate. *)
#[local] Set Warnings "-register-all".
Inductive val : Type :=
| VUndef
| VNull
| VBool (b : bool)
| VNum (n : Z)
| VStr (s : string)
| VObj (o : gmap string val).

(** A store value ([Store], and also [Partial<Store>]: a patch is an
    object holding some of the fields). *)
Abbreviation obj := (gmap string val).

(** [{ ...a, ...b }]: the own properties of [a], then those of [b], a
    property of [b] replacing the property of [a] with the same name. *)
Definition spread (a b : obj) : obj := b ∪ a.

(** ** Store instances and worlds *)

(** The reference of a call-back function. *)
Definition cbid := nat.

(** The handle of a store: the object [{ get, set, subscribe }] returned
    by one [useStoreData]. *)
Definition handle := nat.

(** The two refs of [useStoreData]: [store] and [subscribers]. *)
Record instance : Type := Instance {
  current : obj;
  subscribers : list (option cbid)
}.

Inductive event : Type :=
| EvMerge (a : handle) (s : obj)
| EvGet (a : handle) (s : obj)
| EvCall (a : handle) (depth : nat) (cb : cbid).

Record World : Type := MkWorld {
  stores : gmap handle instance;
  trace : list event
}.

Definition emit (e : event) (w : World) : World :=
  MkWorld (stores w) (trace w ++ [e]).

(** The instance behind a handle.  A handle is a closure over its refs,
    so in the program it always denotes an instance; the model makes
    every handle denote one: a handle that no [useStoreData] returned
    stands for an instance with an empty object and no subscriber. *)
Definition inst (a : handle) (w : World) : instance :=
  default (Instance ∅ []) (stores w !! a).

Definition update (a : handle) (f : instance → instance) (w : World) : World :=
  MkWorld (<[a := f (inst a w)]> (stores w)) (trace w).

(** ** The JavaScript [Set] of subscribers *)

(** The values present in the set, in insertion order. *)
Definition present (l : list (option cbid)) : list cbid := omap id l.

(** [Set.prototype.add]. *)
Definition set_add (cb : cbid) (l : list (option cbid)) : list (option cbid) :=
  if decide (Some cb ∈ l) then l else l ++ [Some cb].

(** [Set.prototype.delete]: the slot of the value becomes empty. *)
Definition set_delete (cb : cbid) (l : list (option cbid)) : list (option cbid) :=
  (λ e, if decide (e = Some cb) then None else e) <$> l.

(** The boolean returned by [Set.prototype.delete]. *)
Definition set_has (cb : cbid) (l : list (option cbid)) : bool :=
  bool_decide (Some cb ∈ l).

(** ** The closures of [useStoreData] *)

(** [useStoreData()] on the first render of a [Provider]:
    [useRef(initialState)] and [useRef(new Set())]. *)
Definition useStoreData (initialState : obj) (w : World) : handle * World :=
  let a := fresh (dom (stores w)) in
  (a, MkWorld (<[a := Instance initialState []]> (stores w)) (trace w)).

(** [get = () => store.current]. *)
Definition get (a : handle) (w : World) : obj := current (inst a w).

(** The registered call-backs of a store, in insertion order. *)
Definition registered (a : handle) (w : World) : list cbid :=
  present (subscribers (inst a w)).

(** Line 35: [store.current = { ...store.current, ...value }]. *)
Definition assign (a : handle) (value : obj) (w : World) : World :=
  emit (EvMerge a (spread (get a w) value))
    (update a (λ i, Instance (spread (current i) value) (subscribers i)) w).

(** Line 42: [subscribers.current.add(callback)]. *)
Definition subscribe (a : handle) (callback : cbid) (w : World) : World :=
  update a (λ i, Instance (current i) (set_add callback (subscribers i))) w.

(** Line 44, the closure returned by [subscribe(callback)]:
    [() => subscribers.current.delete(callback)]. *)
Definition unsubscribe (a : handle) (callback : cbid) (w : World) : World :=
  update a (λ i, Instance (current i) (set_delete callback (subscribers i))) w.

(** The value that closure returns. *)
Definition unsubscribe_result (a : handle) (callback : cbid) (w : World) : bool :=
  set_has callback (subscribers (inst a w)).

(** ** Client code *)

(** What a piece of client code (a call-back, or the code that calls
    [set] in the first place) does with stores.  [Get a k] calls [get]
    of store [a] and continues with [k] applied to the value read;
    [Unsubscribe a cb k] calls the closure returned by an earlier
    [subscribe(cb)] of store [a]. *)
Inductive prog : Type :=
| Ret
| Get (a : handle) (k : obj → prog)
| SetP (a : handle) (value : obj) (k : prog)
| Subscribe (a : handle) (cb : cbid) (k : prog)
| Unsubscribe (a : handle) (cb : cbid) (k : prog).

(** The interpreter runs client code at a nesting depth, or the
    [forEach] of the [set] of a store from a slot index on. *)
Inductive task : Type :=
| Run (depth : nat) (p : prog)
| ForEach (a : handle) (depth : nat) (index : nat).

Section Interpreter.

(** The body of every call-back. *)
Variable env : cbid → prog.

Fixpoint exec (fuel : nat) (t : task) (w : World) : option World :=
  match fuel with
  | O => None
  | S fuel =>
    match t with
    | Run d Ret => Some w
    | Run d (Get a k) =>
        exec fuel (Run d (k (get a w))) (emit (EvGet a (get a w)) w)
    | Run d (SetP a value k) =>
        w1 ← exec fuel (ForEach a d 0) (assign a value w);
        exec fuel (Run d k) w1
    | Run d (Subscribe a cb k) => exec fuel (Run d k) (subscribe a cb w)
    | Run d (Unsubscribe a cb k) => exec fuel (Run d k) (unsubscribe a cb w)
    | ForEach a d i =>
        match subscribers (inst a w) !! i with
        | None => Some w
        | Some None => exec fuel (ForEach a d (S i)) w
        | Some (Some cb) =>
            w1 ← exec fuel (Run (S d) (env cb)) (emit (EvCall a d cb) w);
            exec fuel (ForEach a d (S i)) w1
        end
    end
  end.

(** A call [set(value)] of store [a], made by code at depth [d]. *)
Definition set (fuel : nat) (d : nat) (a : handle) (value : obj) (w : World)
  : option World :=
  exec fuel (Run d (SetP a value Ret)) w.

End Interpreter.

(** ** The binding layer: [Provider] and [useStore] *)

(** The error thrown by line 79. *)
Inductive error : Type :=
| Error (message : string).

(** [useContext(StoreContext)]: the value of the nearest enclosing
    [StoreContext.Provider], or the default value [null] of line 55 when
    there is none.  [providers] lists the values of the enclosing
    providers, the nearest first. *)
Definition useContext (providers : list handle) : option handle :=
  head providers.

(** [Provider]: calls [useStoreData] and makes the store the value of the
    context for its children. *)
Definition Provider (initialState : obj) (providers : list handle) (w : World)
  : list handle * World :=
  let '(store, w') := useStoreData initialState w in (store :: providers, w').

(** [useStore(selector)], lines 77 to 88: the selected value and the [set]
    of the store, or the error.  [useSyncExternalStore] returns the
    snapshot [selector(store.get())] for the render. *)
Definition useStore {SelectorOutput : Type} (selector : obj → SelectorOutput)
    (providers : list handle) (w : World) : error + (SelectorOutput * handle) :=
  match useContext providers with
  | None => inl (Error "Store not found!")
  | Some store => inr (selector (get store w), store)
  end.

(** ** Big-step semantics *)

(** The same semantics as a relation, for rule induction. *)
Inductive eval (env : cbid → prog) : task → World → World → Prop :=
| eval_ret d w :
    eval env (Run d Ret) w w
| eval_get d a k w w' :
    eval env (Run d (k (get a w))) (emit (EvGet a (get a w)) w) w' →
    eval env (Run d (Get a k)) w w'
| eval_set d a value k w w1 w' :
    eval env (ForEach a d 0) (assign a value w) w1 →
    eval env (Run d k) w1 w' →
    eval env (Run d (SetP a value k)) w w'
| eval_subscribe d a cb k w w' :
    eval env (Run d k) (subscribe a cb w) w' →
    eval env (Run d (Subscribe a cb k)) w w'
| eval_unsubscribe d a cb k w w' :
    eval env (Run d k) (unsubscribe a cb w) w' →
    eval env (Run d (Unsubscribe a cb k)) w w'
| eval_end a d i w :
    subscribers (inst a w) !! i = None →
    eval env (ForEach a d i) w w
| eval_skip a d i w w' :
    subscribers (inst a w) !! i = Some None →
    eval env (ForEach a d (S i)) w w' →
    eval env (ForEach a d i) w w'
| eval_call a d i cb w w1 w' :
    subscribers (inst a w) !! i = Some (Some cb) →
    eval env (Run (S d) (env cb)) (emit (EvCall a d cb) w) w1 →
    eval env (ForEach a d (S i)) w1 w' →
    eval env (ForEach a d i) w w'.

(** ** Projections of a trace *)

(** The call-backs invoked by the [forEach] of store [a] at depth [d]. *)
Definition calls (a : handle) (d : nat) (tr : list event) : list cbid :=
  omap (λ e, match e with
             | EvCall b d' cb =>
                 if decide (b = a ∧ d' = d) then Some cb else None
             | _ => None
             end) tr.

(** Every invocation of a call-back: the store and the depth of the
    [forEach], and the call-back. *)
Definition invocations (tr : list event) : list (handle * nat * cbid) :=
  omap (λ e, match e with
             | EvCall a d cb => Some (a, d, cb)
             | _ => None
             end) tr.

(** The value of [store.current] of [a] after the events [tr], starting
    from the value [s]. *)
Definition last_assigned (a : handle) (s : obj) (tr : list event) : obj :=
  foldl (λ s e, match e with
                | EvMerge b s' => if decide (b = a) then s' else s
                | _ => s
                end) s tr.

(** How often [cb] occurs in a list of call-backs. *)
Definition occurrences (cb : cbid) (l : list cbid) : nat :=
  length (filter (λ c, c = cb) l).

(** ** Classes of client code *)

(** Code that only reads: no [set], no [subscribe], no unsubscribe. *)
Inductive reader : prog → Prop :=
| reader_ret : reader Ret
| reader_get a k : (∀ s, reader (k s)) → reader (Get a k).

(** Code that never calls an unsubscribe closure. *)
Inductive no_unsubscribe : prog → Prop :=
| nu_ret : no_unsubscribe Ret
| nu_get a k : (∀ s, no_unsubscribe (k s)) → no_unsubscribe (Get a k)
| nu_set a value k : no_unsubscribe k → no_unsubscribe (SetP a value k)
| nu_subscribe a cb k : no_unsubscribe k → no_unsubscribe (Subscribe a cb k).

(** Code that never calls [set]. *)
Inductive no_set : prog → Prop :=
| ns_ret : no_set Ret
| ns_get a k : (∀ s, no_set (k s)) → no_set (Get a k)
| ns_subscribe a cb k : no_set k → no_set (Subscribe a cb k)
| ns_unsubscribe a cb k : no_set k → no_set (Unsubscribe a cb k).

(** Code that never subscribes [cb] to store [a]. *)
Inductive no_subscribe_of (a : handle) (cb : cbid) : prog → Prop :=
| nso_ret : no_subscribe_of a cb Ret
| nso_get b k :
    (∀ s, no_subscribe_of a cb (k s)) → no_subscribe_of a cb (Get b k)
| nso_set b value k :
    no_subscribe_of a cb k → no_subscribe_of a cb (SetP b value k)
| nso_subscribe b c k :
    (b, c) ≠ (a, cb) → no_subscribe_of a cb k →
    no_subscribe_of a cb (Subscribe b c k)
| nso_unsubscribe b c k :
    no_subscribe_of a cb k → no_subscribe_of a cb (Unsubscribe b c k).

(** A store whose registry holds no value twice. *)
Definition registry_ok (a : handle) (w : World) : Prop :=
  NoDup (registered a w).

(** The events added to the trace between two worlds. *)
Definition new_events (w w' : World) : list event :=
  drop (length (trace w)) (trace w').

(** Every [get] of store [a] recorded in [tr] returned the value most
    recently assigned to [store.current], [s] being the value before
    [tr]. *)
Fixpoint reads_current (a : handle) (s : obj) (tr : list event) : Prop :=
  match tr with
  | [] => True
  | EvMerge b s' :: tr => reads_current a (if decide (b = a) then s' else s) tr
  | EvGet b s' :: tr => (b = a → s' = s) ∧ reads_current a s tr
  | EvCall _ _ _ :: tr => reads_current a s tr
  end.

(** A sequence of [subscribe] calls on one store. *)
Definition subscribe_all (a : handle) (cbs : list cbid) (w : World) : World :=
  foldl (λ w cb, subscribe a cb w) w cbs.

(** The order of first subscription: [cbs] appended to [l], skipping the
    values already there. *)
Definition append_new (l cbs : list cbid) : list cbid :=
  foldl (λ acc cb, if decide (cb ∈ acc) then acc else acc ++ [cb]) l cbs.

(** ** Re-entrant [set] that comes to an end *)

(** [tame μ p w]: run in the world [w], the code [p] leaves the
    registries alone and calls [set] only with a patch that makes the
    measure [μ] of the stores strictly smaller; what follows a [set] is
    tame in every world the nested notification can leave behind. *)
Fixpoint tame (μ : gmap handle instance → nat) (p : prog) (w : World) : Prop :=
  match p with
  | Ret => True
  | Get a k => tame μ (k (get a w)) w
  | SetP a value k =>
      μ (stores (assign a value w)) < μ (stores w) ∧
      ∀ w', μ (stores w') ≤ μ (stores (assign a value w)) → tame μ k w'
  | Subscribe _ _ _ => False
  | Unsubscribe _ _ _ => False
  end.

(** The re-entrancy property as the specification words it: whenever a
    [set] returns, the [forEach] of that [set] has invoked every
    call-back that was registered when it began exactly once, whatever
    the call-backs do. *)
Definition every_subscriber_once (env : cbid → prog) (a : handle) (d : nat)
    (value : obj) (w : World) : Prop :=
  ∀ fuel w', set env fuel d a value w = Some w' →
    ∀ cb, cb ∈ registered a w →
      occurrences cb (calls a d (new_events w w')) = 1.

(** What a task may do when no code ever calls an unsubscribe closure. *)
Definition adds_only (t : task) : Prop :=
  match t with
  | Run _ p => no_unsubscribe p
  | ForEach _ _ _ => True
  end.

(** A task that never subscribes [cb] to store [a]. *)
Definition quiet_task (a : handle) (cb : cbid) (t : task) : Prop :=
  match t with
  | Run _ p => no_subscribe_of a cb p
  | ForEach _ _ _ => True
  end.

(** A task returns, leaves the registries as they are and does not make
    the measure greater. *)
Definition settles (env : cbid → prog) (μ : gmap handle instance → nat)
    (t : task) (w : World) : Prop :=
  ∃ w', eval env t w w' ∧
        μ (stores w') ≤ μ (stores w) ∧
        ∀ b, subscribers (inst b w') = subscribers (inst b w).

(** ** Sample stores and call-backs *)

(** No store yet. *)
Definition empty_world : World := MkWorld ∅ [].

(** The value [{ a: 1, b: 2 }]. *)
Definition ab : obj := {[ "a" := VNum 1; "b" := VNum 2 ]}.

(** A store holding [{ a: 1, b: 2 }], to which the call-backs 0 and 1
    are subscribed, in that order. *)
Definition ab_world : World :=
  subscribe 0 1 (subscribe 0 0 (useStoreData ab empty_world).2).

(** Call-backs that do nothing. *)
Definition idle : cbid → prog := λ _, Ret.

(** Call-backs that read the store. *)
Definition observer : cbid → prog := λ _, Get 0 (λ _, Ret).

(** Call-back 0 unsubscribes call-back 1; the others do nothing. *)
Definition remover : cbid → prog :=
  λ cb, match cb with
        | 0 => Unsubscribe 0 1 Ret
        | _ => Ret
        end.

(** The field [count] of a store value. *)
Definition count_of (s : obj) : Z :=
  match s !! "count" with
  | Some (VNum n) => n
  | _ => 0%Z
  end.

(** Call-back 0 counts up to 3 by calling [set] again from within the
    notification; the others do nothing. *)
Definition counter : cbid → prog :=
  λ cb, match cb with
        | 0 => Get 0 (λ s,
                 if (count_of s <? 3)%Z
                 then SetP 0 {[ "count" := VNum (count_of s + 1) ]} Ret
                 else Ret)
        | _ => Ret
        end.

(** How far the count of store 0 is from 3. *)
Definition counter_measure (st : gmap handle instance) : nat :=
  Z.to_nat (3 - count_of (current (default (Instance ∅ []) (st !! 0)))).

(** A store holding [{ count: 0 }] with the subscribers 0 and 1. *)
Definition counter_world : World :=
  subscribe 0 1
    (subscribe 0 0 (useStoreData {[ "count" := VNum 0 ]} empty_world).2).


(** ** Further client code *)

(** A run of [set] calls on one store, one after the other. *)
Definition set_each (a : handle) (patches : list obj) : prog :=
  foldr (SetP a) Ret patches.

(** Code of the call-back [cb] that reads stores and, at most, calls its
    own unsubscribe closure of store [a]. *)
Inductive leaves_only (a : handle) (cb : cbid) : prog → Prop :=
| lo_ret : leaves_only a cb Ret
| lo_get b k : (∀ s, leaves_only a cb (k s)) → leaves_only a cb (Get b k)
| lo_unsubscribe k :
    leaves_only a cb k → leaves_only a cb (Unsubscribe a cb k).

(** Code that reads stores and calls unsubscribe closures, of any
    call-back and any store, and nothing else. *)
Inductive removes_only : prog → Prop :=
| ro_ret : removes_only Ret
| ro_get b k : (∀ s, removes_only (k s)) → removes_only (Get b k)
| ro_unsubscribe b c k : removes_only k → removes_only (Unsubscribe b c k).

(** The slots [l'] are the slots [l] with some of them emptied. *)
Definition emptied (l l' : list (option cbid)) : Prop :=
  Forall2 (λ x y, y = x ∨ y = None) l l'.

(** Call-back 0 subscribes call-back 5 during the notification. *)
Definition recruiter : cbid → prog :=
  λ cb, match cb with
        | 0 => Subscribe 0 5 Ret
        | _ => Ret
        end.

(** Call-back 0 calls [set] whenever it is notified. *)
Definition echo : cbid → prog :=
  λ cb, match cb with
        | 0 => SetP 0 ∅ Ret
        | _ => Ret
        end.

(** Call-back 0 unsubscribes and subscribes again whenever it is
    notified. *)
Definition restless : cbid → prog :=
  λ cb, match cb with
        | 0 => Unsubscribe 0 0 (Subscribe 0 0 Ret)
        | _ => Ret
        end.

(** Every call-back listens once: it unsubscribes itself when it is
    notified. *)
Definition once : cbid → prog := λ cb, Unsubscribe 0 cb Ret.

(** ** Several contexts *)

(** The identity of a context object, as [createContext] returns it. *)
Definition context := nat.

(** What the [Provider] and the [useStore] of one [createFastContext]
    close over: its [StoreContext] and its [initialState]. *)
Record FastContext : Type := MkFastContext {
  StoreContext : context;
  initialState_of : obj
}.

(** [createFastContext(initialState)], line 18: [createContext] of line
    55 makes a context that did not exist; [contexts] counts the
    contexts made so far. *)
Definition createFastContext (initialState : obj) (contexts : nat)
  : FastContext * nat :=
  (MkFastContext contexts initialState, S contexts).

(** The context providers above a component, the nearest first, each with
    its context and its value. *)
Definition ancestors := list (context * handle).

(** The values of the providers of one context, the nearest first. *)
Definition providers_of (c : context) (above : ancestors) : list handle :=
  omap (λ x, if decide (x.1 = c) then Some x.2 else None) above.

(** The [Provider] of a fast context, lines 62 to 67. *)
Definition Provider_of (fc : FastContext) (above : ancestors) (w : World)
  : ancestors * World :=
  let '(store, w') := useStoreData (initialState_of fc) w in
  ((StoreContext fc, store) :: above, w').

(** The [useStore] of a fast context, lines 73 to 89: [useContext] looks
    for the nearest provider of its own [StoreContext]. *)
Definition useStore_of {SelectorOutput : Type} (fc : FastContext)
    (selector : obj → SelectorOutput) (above : ancestors) (w : World)
  : error + (SelectorOutput * handle) :=
  useStore selector (providers_of (StoreContext fc) above) w.

(** ** The round of a [set] *)

(** The bodies of the call-backs [cbs] of store [a], run one after the
    other by the code, each after the event of its invocation at depth
    [d]: what a [forEach] over exactly these call-backs does. *)
Inductive round (env : cbid → prog) (a : handle) (d : nat)
  : list cbid → World → World → Prop :=
| round_nil w : round env a d [] w w
| round_cons cb cbs fuel w w1 w' :
    exec env fuel (Run (S d) (env cb)) (emit (EvCall a d cb) w) = Some w1 →
    round env a d cbs w1 w' →
    round env a d (cb :: cbs) w w'.

(** Code that does not call [set], [subscribe] or an unsubscribe closure
    of store [y] (it may read it), and that subscribes only call-backs
    of [R]. *)
Inductive confined (y : handle) (R : cbid → Prop) : prog → Prop :=
| cf_ret : confined y R Ret
| cf_get b k : (∀ s, confined y R (k s)) → confined y R (Get b k)
| cf_set b value k : b ≠ y → confined y R k → confined y R (SetP b value k)
| cf_subscribe b c k :
    b ≠ y → R c → confined y R k → confined y R (Subscribe b c k)
| cf_unsubscribe b c k :
    b ≠ y → confined y R k → confined y R (Unsubscribe b c k).

(** A task that is confined. *)
Definition confined_task (y : handle) (R : cbid → Prop) (t : task) : Prop :=
  match t with
  | Run _ p => confined y R p
  | ForEach a _ _ => a ≠ y
  end.

(** Notification completeness as the specification words it: a [set]
    returns having invoked every registered call-back exactly once,
    whatever the call-backs do. *)
Definition notifies_every_subscriber (env : cbid → prog) (a : handle)
    (d : nat) (value : obj) (w : World) : Prop :=
  ∃ fuel w', set env fuel d a value w = Some w' ∧
    ∀ cb, cb ∈ registered a w →
      occurrences cb (calls a d (new_events w w')) = 1.

(** Notification order as the specification words it: after the
    call-backs [cbs] have been subscribed, a [set] that returns has
    invoked the registered call-backs in the order of their
    subscription, whatever the call-backs do. *)
Definition notifies_in_subscription_order (env : cbid → prog) (a : handle)
    (d : nat) (cbs : list cbid) (value : obj) (w : World) : Prop :=
  ∀ fuel w',
    set env fuel d a value (subscribe_all a cbs w) = Some w' →
    calls a d (new_events (subscribe_all a cbs w) w')
    = append_new (registered a w) cbs.

(** Two stores from [{ a: 1, b: 2 }]; call-back 5 is subscribed to the
    first and call-back 6 to the second. *)
Definition two_stores : World :=
  subscribe 1 6
    (subscribe 0 5 (useStoreData ab (useStoreData ab empty_world).2).2).

(** Call-back 5 reads the first store and call-back 6 the second. *)
Definition neighbours : cbid → prog :=
  λ cb, match cb with
        | 5 => Get 0 (λ _, Ret)
        | 6 => Get 1 (λ _, Ret)
        | _ => Ret
        end.

(** * Basic facts *)

Lemma inst_emit a e w : inst a (emit e w) = inst a w.
Proof. reflexivity. Qed.

Lemma inst_update a b f w :
  inst b (update a f w) = if decide (a = b) then f (inst a w) else inst b w.
Proof.
  unfold inst at 1, update; simpl.
  rewrite lookup_insert. destruct (decide (a = b)) as [->|]; done.
Qed.

Lemma inst_update_eq a f w : inst a (update a f w) = f (inst a w).
Proof. rewrite inst_update. by rewrite decide_True. Qed.

Lemma inst_update_ne a b f w : a ≠ b → inst b (update a f w) = inst b w.
Proof. intros. rewrite inst_update. by rewrite decide_False. Qed.

Lemma trace_update a f w : trace (update a f w) = trace w.
Proof. reflexivity. Qed.

Lemma trace_emit e w : trace (emit e w) = trace w ++ [e].
Proof. reflexivity. Qed.

Lemma get_emit a e w : get a (emit e w) = get a w.
Proof. reflexivity. Qed.

Lemma get_assign a value w : get a (assign a value w) = spread (get a w) value.
Proof. unfold assign, get. by rewrite inst_emit, inst_update_eq. Qed.

Lemma get_assign_ne a b value w : a ≠ b → get b (assign a value w) = get b w.
Proof. intros. unfold assign, get. by rewrite inst_emit, inst_update_ne. Qed.

Lemma subscribers_assign a b value w :
  subscribers (inst b (assign a value w)) = subscribers (inst b w).
Proof.
  unfold assign. rewrite inst_emit, inst_update.
  destruct (decide (a = b)) as [->|]; done.
Qed.

Lemma trace_assign a value w :
  trace (assign a value w) = trace w ++ [EvMerge a (spread (get a w) value)].
Proof. reflexivity. Qed.

Lemma get_subscribe a b cb w : get b (subscribe a cb w) = get b w.
Proof.
  unfold subscribe, get. rewrite inst_update.
  destruct (decide (a = b)) as [->|]; done.
Qed.

Lemma get_unsubscribe a b cb w : get b (unsubscribe a cb w) = get b w.
Proof.
  unfold unsubscribe, get. rewrite inst_update.
  destruct (decide (a = b)) as [->|]; done.
Qed.

Lemma subscribers_subscribe a cb w :
  subscribers (inst a (subscribe a cb w)) = set_add cb (subscribers (inst a w)).
Proof. unfold subscribe. by rewrite inst_update_eq. Qed.

Lemma subscribers_subscribe_ne a b cb w :
  a ≠ b → subscribers (inst b (subscribe a cb w)) = subscribers (inst b w).
Proof. intros. unfold subscribe. by rewrite inst_update_ne. Qed.

Lemma subscribers_unsubscribe a cb w :
  subscribers (inst a (unsubscribe a cb w))
  = set_delete cb (subscribers (inst a w)).
Proof. unfold unsubscribe. by rewrite inst_update_eq. Qed.

Lemma subscribers_unsubscribe_ne a b cb w :
  a ≠ b → subscribers (inst b (unsubscribe a cb w)) = subscribers (inst b w).
Proof. intros. unfold unsubscribe. by rewrite inst_update_ne. Qed.

(** ** The [Set] operations *)

Lemma elem_of_present cb l : cb ∈ present l ↔ Some cb ∈ l.
Proof.
  unfold present. rewrite list_elem_of_omap. split.
  - intros ([x|] & Hx & Heq); simplify_eq/=. done.
  - intros H. by exists (Some cb).
Qed.

Lemma present_app l1 l2 : present (l1 ++ l2) = present l1 ++ present l2.
Proof. unfold present. apply omap_app. Qed.

Lemma present_set_add cb l :
  present (set_add cb l) = if decide (cb ∈ present l) then present l
                           else present l ++ [cb].
Proof.
  unfold set_add. destruct (decide (Some cb ∈ l)) as [Hin|Hin].
  - rewrite decide_True; [done|]. by apply elem_of_present.
  - rewrite decide_False; [|by rewrite elem_of_present].
    by rewrite present_app.
Qed.

Lemma present_set_delete cb l :
  present (set_delete cb l) = filter (λ c, c ≠ cb) (present l).
Proof.
  induction l as [|e l IH]; [done|].
  change (set_delete cb (e :: l))
    with ((if decide (e = Some cb) then None else e) :: set_delete cb l).
  destruct (decide (e = Some cb)) as [->|Hne].
  - change (present (None :: ?l)) with (present l).
    change (present (Some cb :: l)) with (cb :: present l).
    rewrite filter_cons_False; [done|]. by intros [].
  - destruct e as [c|].
    + change (present (Some c :: ?l)) with (c :: present l).
      rewrite filter_cons_True; [|congruence]. by rewrite IH.
    + change (present (None :: ?l)) with (present l). done.
Qed.

Lemma set_delete_absent cb l : Some cb ∉ l → set_delete cb l = l.
Proof.
  intros Hn. unfold set_delete. induction l as [|e l IH]; [done|].
  rewrite not_elem_of_cons in Hn. destruct Hn as [Hne Hn].
  rewrite fmap_cons, decide_False; [|done]. by rewrite IH.
Qed.

Lemma set_delete_gone cb l : Some cb ∉ set_delete cb l.
Proof.
  unfold set_delete. rewrite list_elem_of_fmap. intros (e & Heq & _).
  destruct (decide (e = Some cb)); simplify_eq.
Qed.

Lemma NoDup_present_set_add cb l :
  NoDup (present l) → NoDup (present (set_add cb l)).
Proof.
  intros Hnd. rewrite present_set_add. case_decide; [done|].
  apply NoDup_app. split_and!; [done| |apply NoDup_singleton].
  intros x Hx Hx'. apply list_elem_of_singleton in Hx'. by subst.
Qed.

Lemma NoDup_present_set_delete cb l :
  NoDup (present l) → NoDup (present (set_delete cb l)).
Proof. intros. rewrite present_set_delete. by apply NoDup_filter. Qed.

(** ** The interpreter and the relation agree *)

Section Semantics.

Variable env : cbid → prog.

Lemma exec_eval fuel t w w' : exec env fuel t w = Some w' → eval env t w w'.
Proof.
  revert t w w'. induction fuel as [|fuel IH]; intros t w w' H; [done|].
  destruct t as [d p|a d i]; simpl in H.
  - destruct p as [|a k|a value k|a cb k|a cb k].
    + simplify_eq. constructor.
    + constructor. by apply IH.
    + destruct (exec env fuel (ForEach a d 0) (assign a value w))
        as [w1|] eqn:H1; simpl in H; [|done].
      econstructor; by apply IH.
    + constructor. by apply IH.
    + constructor. by apply IH.
  - destruct (subscribers (inst a w) !! i) as [[cb|]|] eqn:Hi.
    + destruct (exec env fuel (Run (S d) (env cb)) (emit (EvCall a d cb) w))
        as [w1|] eqn:H1; simpl in H; [|done].
      eapply eval_call; [done| |]; by apply IH.
    + eapply eval_skip; [done|]. by apply IH.
    + simplify_eq. by constructor.
Qed.

Lemma exec_S fuel t w w' :
  exec env fuel t w = Some w' → exec env (S fuel) t w = Some w'.
Proof.
  revert t w w'. induction fuel as [|fuel IH]; intros t w w' H; [done|].
  destruct t as [d p|a d i]; simpl in H.
  - destruct p as [|a k|a value k|a cb k|a cb k].
    + done.
    + apply IH in H. exact H.
    + destruct (exec env fuel (ForEach a d 0) (assign a value w))
        as [w1|] eqn:H1; simpl in H; [|done].
      apply IH in H1, H. change (exec env (S (S fuel)) ?t ?w)
        with (match t with Run d (SetP a value k) =>
                w1 ← exec env (S fuel) (ForEach a d 0) (assign a value w);
                exec env (S fuel) (Run d k) w1 | _ => None end).
      cbv beta iota. by rewrite H1.
    + apply IH in H. exact H.
    + apply IH in H. exact H.
  - remember (S fuel) as n. simpl. subst n.
    destruct (subscribers (inst a w) !! i) as [[cb|]|] eqn:Hi.
    + destruct (exec env fuel (Run (S d) (env cb)) (emit (EvCall a d cb) w))
        as [w1|] eqn:H1; simpl in H; [|done].
      apply IH in H1, H. by rewrite H1.
    + by apply IH.
    + done.
Qed.

Lemma exec_mono fuel fuel' t w w' :
  fuel ≤ fuel' → exec env fuel t w = Some w' → exec env fuel' t w = Some w'.
Proof. induction 1; [done|]. intros. by apply exec_S, IHle. Qed.

Lemma eval_exec t w w' :
  eval env t w w' → ∃ fuel, exec env fuel t w = Some w'.
Proof.
  induction 1 as
    [d w|d a k w w' _ [n IH]|d a value k w w1 w' _ [n1 IH1] _ [n2 IH2]
    |d a cb k w w' _ [n IH]|d a cb k w w' _ [n IH]
    |a d i w Hi|a d i w w' Hi _ [n IH]
    |a d i cb w w1 w' Hi _ [n1 IH1] _ [n2 IH2]].
  - by exists 1.
  - by exists (S n).
  - exists (S (n1 `max` n2)). simpl.
    rewrite (exec_mono n1 (n1 `max` n2) _ _ w1); [|lia|done]. simpl.
    apply (exec_mono n2); [lia|done].
  - by exists (S n).
  - by exists (S n).
  - exists 1. simpl. by rewrite Hi.
  - exists (S n). simpl. by rewrite Hi.
  - exists (S (n1 `max` n2)). simpl. rewrite Hi.
    rewrite (exec_mono n1 (n1 `max` n2) _ _ w1); [|lia|done]. simpl.
    apply (exec_mono n2); [lia|done].
Qed.

End Semantics.

(** ** Traces *)

Lemma calls_app a d l1 l2 : calls a d (l1 ++ l2) = calls a d l1 ++ calls a d l2.
Proof. apply omap_app. Qed.

Lemma calls_call a d cb : calls a d [EvCall a d cb] = [cb].
Proof. unfold calls; simpl. by rewrite decide_True. Qed.

Lemma calls_call_ne a d b d' cb :
  (b, d') ≠ (a, d) → calls a d [EvCall b d' cb] = [].
Proof.
  intros Hne. unfold calls; simpl. rewrite decide_False; [done|].
  intros [-> ->]. done.
Qed.

Lemma last_assigned_app a s l1 l2 :
  last_assigned a s (l1 ++ l2) = last_assigned a (last_assigned a s l1) l2.
Proof. apply foldl_app. Qed.

Lemma reads_current_app a s l1 l2 :
  reads_current a s (l1 ++ l2)
  ↔ reads_current a s l1 ∧ reads_current a (last_assigned a s l1) l2.
Proof.
  revert s. induction l1 as [|e l1 IH]; intros s; simpl; [tauto|].
  destruct e as [b s'|b s'|b d cb]; rewrite IH; simpl; tauto.
Qed.

Lemma reads_current_read a s l1 s' l2 :
  reads_current a s (l1 ++ EvGet a s' :: l2) → s' = last_assigned a s l1.
Proof. rewrite reads_current_app. simpl. intros (_ & Heq & _). by apply Heq. Qed.

Lemma new_events_app w w' l : trace w' = trace w ++ l → new_events w w' = l.
Proof. unfold new_events. intros ->. by rewrite drop_app_length. Qed.

Section Invariants.

Variable env : cbid → prog.

Lemma eval_trace t w w' : eval env t w w' → ∃ l, trace w' = trace w ++ l.
Proof.
  induction 1 as
    [d w|d a k w w' _ [l IH]|d a value k w w1 w' _ [l1 IH1] _ [l2 IH2]
    |d a cb k w w' _ [l IH]|d a cb k w w' _ [l IH]
    |a d i w Hi|a d i w w' Hi _ [l IH]
    |a d i cb w w1 w' Hi _ [l1 IH1] _ [l2 IH2]].
  - exists []. by rewrite app_nil_r.
  - eexists. rewrite IH, trace_emit, <-app_assoc. done.
  - eexists. rewrite IH2, IH1, trace_assign, <-!app_assoc. done.
  - by exists l.
  - by exists l.
  - exists []. by rewrite app_nil_r.
  - by exists l.
  - eexists. rewrite IH2, IH1, trace_emit, <-!app_assoc. done.
Qed.

Lemma eval_new_events t w w' :
  eval env t w w' → trace w' = trace w ++ new_events w w'.
Proof.
  intros [l Hl]%eval_trace. by rewrite (new_events_app _ _ l).
Qed.

(** No operation puts a value twice in a registry. *)
Lemma eval_registry_ok a t w w' :
  eval env t w w' → registry_ok a w → registry_ok a w'.
Proof.
  unfold registry_ok, registered.
  induction 1 as
    [d w|d b k w w' _ IH|d b value k w w1 w' _ IH1 _ IH2
    |d b cb k w w' _ IH|d b cb k w w' _ IH
    |b d i w Hi|b d i w w' Hi _ IH
    |b d i cb w w1 w' Hi _ IH1 _ IH2]; intros Hok; auto.
  - apply IH2, IH1. by rewrite subscribers_assign.
  - apply IH. destruct (decide (b = a)) as [->|Hne].
    + rewrite subscribers_subscribe. by apply NoDup_present_set_add.
    + by rewrite subscribers_subscribe_ne.
  - apply IH. destruct (decide (b = a)) as [->|Hne].
    + rewrite subscribers_unsubscribe. by apply NoDup_present_set_delete.
    + by rewrite subscribers_unsubscribe_ne.
Qed.

(** [store.current] is the value most recently assigned, and every
    [get] returned it. *)
Lemma eval_reads_current a t w w' :
  eval env t w w' →
  ∃ l, trace w' = trace w ++ l ∧
       get a w' = last_assigned a (get a w) l ∧
       reads_current a (get a w) l.
Proof.
  induction 1 as
    [d w|d b k w w' _ (l & IH & IHg & IHr)
    |d b value k w w1 w' _ (l1 & IH1 & IHg1 & IHr1) _ (l2 & IH2 & IHg2 & IHr2)
    |d b cb k w w' _ (l & IH & IHg & IHr)|d b cb k w w' _ (l & IH & IHg & IHr)
    |b d i w Hi|b d i w w' Hi _ (l & IH & IHg & IHr)
    |b d i cb w w1 w' Hi _ (l1 & IH1 & IHg1 & IHr1) _ (l2 & IH2 & IHg2 & IHr2)].
  - exists []. by rewrite app_nil_r.
  - exists (EvGet b (get b w) :: l). rewrite IH, trace_emit, <-app_assoc.
    rewrite get_emit in IHg, IHr. simpl. split_and!; try done.
    by intros ->.
  - exists (EvMerge b (spread (get b w) value) :: l1 ++ l2).
    rewrite IH2, IH1, trace_assign, <-!app_assoc. split; [done|].
    simpl. rewrite last_assigned_app, reads_current_app.
    destruct (decide (b = a)) as [->|Hne].
    + rewrite get_assign in IHg1, IHr1. rewrite <-IHg1. done.
    + rewrite get_assign_ne in IHg1, IHr1 by done. rewrite <-IHg1. done.
  - exists l. by rewrite get_subscribe in IHg, IHr.
  - exists l. by rewrite get_unsubscribe in IHg, IHr.
  - exists []. by rewrite app_nil_r.
  - by exists l.
  - exists (EvCall b d cb :: l1 ++ l2).
    rewrite IH2, IH1, trace_emit, <-!app_assoc. split; [done|].
    simpl. rewrite last_assigned_app, reads_current_app.
    rewrite get_emit in IHg1, IHr1. rewrite <-IHg1. done.
Qed.

End Invariants.

(** ** The notification loop when nothing is removed *)

Lemma set_add_prefix cb l : l `prefix_of` set_add cb l.
Proof.
  unfold set_add. case_decide; [done|]. by apply prefix_app_r.
Qed.

Lemma occurrences_absent cb l : cb ∉ l → occurrences cb l = 0.
Proof.
  unfold occurrences. induction l as [|x l IH]; intros Hn; [done|].
  apply not_elem_of_cons in Hn as [Hne Hn].
  rewrite filter_cons_False by congruence. by apply IH.
Qed.

Lemma occurrences_NoDup cb l : NoDup l → cb ∈ l → occurrences cb l = 1.
Proof.
  induction 1 as [|x l Hx Hnd IH]; intros Hin.
  - by apply elem_of_nil in Hin.
  - unfold occurrences. destruct (decide (x = cb)) as [->|Hne].
    + rewrite filter_cons_True by done. simpl. f_equal.
      by apply occurrences_absent.
    + rewrite filter_cons_False by done. apply IH.
      apply elem_of_cons in Hin as [?|?]; [congruence|done].
Qed.

Section Notification.

Variable env : cbid → prog.

(** Without removals a registry only grows at its end, a [forEach] at
    depth [d] invokes the slots from its index on, each once and in
    order, and everything nested in it happens at a greater depth. *)
Lemma eval_adds_only t w w' :
  (∀ cb, no_unsubscribe (env cb)) → adds_only t →
  eval env t w w' →
  (∀ b, subscribers (inst b w) `prefix_of` subscribers (inst b w')) ∧
  ∃ l, trace w' = trace w ++ l ∧
    match t with
    | Run d p => ∀ b d', d' < d → calls b d' l = []
    | ForEach a d i =>
        (∀ b d', d' < d → calls b d' l = []) ∧
        calls a d l = present (drop i (subscribers (inst a w')))
    end.
Proof.
  intros Henv Ht Hev. induction Hev as
    [d w|d a k w w' _ IH|d a value k w w1 w' _ IH1 _ IH2
    |d a cb k w w' _ IH|d a cb k w w' _ IH
    |a d i w Hi|a d i w w' Hi _ IH
    |a d i cb w w1 w' Hi _ IH1 _ IH2]; simpl in Ht.
  - split; [done|]. exists []. by rewrite app_nil_r.
  - inversion Ht as [|? ? Hk| |]; subst.
    destruct (IH (Hk _)) as (Hp & l & Hl & Hc). split; [done|].
    exists (EvGet a (get a w) :: l).
    rewrite Hl, trace_emit, <-app_assoc. split; [done|].
    intros b d' Hd. by apply Hc.
  - inversion Ht; subst.
    destruct (IH1 I) as (Hp1 & l1 & Hl1 & Hc1 & _).
    destruct IH2 as (Hp2 & l2 & Hl2 & Hc2); [done|]. split.
    + intros b. etrans; [|apply Hp2]. etrans; [|apply Hp1].
      by rewrite subscribers_assign.
    + exists (EvMerge a (spread (get a w) value) :: l1 ++ l2).
      rewrite Hl2, Hl1, trace_assign, <-!app_assoc. split; [done|].
      intros b d' Hd.
      change (calls b d' (l1 ++ l2) = []).
      by rewrite calls_app, Hc1, Hc2.
  - inversion Ht; subst.
    destruct IH as (Hp & l & Hl & Hc); [done|]. split.
    + intros b. etrans; [|apply Hp]. destruct (decide (a = b)) as [->|Hne].
      * rewrite subscribers_subscribe. apply set_add_prefix.
      * by rewrite subscribers_subscribe_ne.
    + by exists l.
  - inversion Ht.
  - split; [done|]. exists []. rewrite app_nil_r. split_and!; try done.
    apply lookup_ge_None in Hi. by rewrite drop_ge.
  - destruct (IH I) as (Hp & l & Hl & Hc & Hd). split; [done|].
    exists l. split_and!; try done.
    rewrite Hd.
    pose proof (prefix_lookup_Some _ _ _ _ Hi (Hp a)) as Hi'.
    by rewrite (drop_S _ _ _ Hi').
  - destruct (IH1 (Henv cb)) as (Hp1 & l1 & Hl1 & Hc1).
    destruct (IH2 I) as (Hp2 & l2 & Hl2 & Hc2 & Hd2). split.
    + intros b. etrans; [|apply Hp2]. by etrans; [|apply Hp1].
    + exists (EvCall a d cb :: l1 ++ l2).
      rewrite Hl2, Hl1, trace_emit, <-!app_assoc. split; [done|]. split.
      * intros b d' Hd.
        change (calls b d' ([EvCall a d cb] ++ l1 ++ l2) = []).
        rewrite !calls_app, Hc1, Hc2 by lia.
        rewrite calls_call_ne; [done|]. intros [= _ ->]. lia.
      * change (calls a d ([EvCall a d cb] ++ l1 ++ l2)
                = present (drop i (subscribers (inst a w')))).
        rewrite !calls_app, calls_call, Hc1, Hd2 by lia.
        assert (subscribers (inst a w') !! i = Some (Some cb)) as Hi'.
        { eapply prefix_lookup_Some; [|apply Hp2].
          eapply prefix_lookup_Some; [|apply Hp1]. done. }
        by rewrite (drop_S _ _ _ Hi').
Qed.

(** Consequence for a whole [set]. *)
Lemma set_adds_only d a value w w' :
  (∀ cb, no_unsubscribe (env cb)) →
  eval env (Run d (SetP a value Ret)) w w' →
  registered a w `prefix_of` calls a d (new_events w w') ∧
  calls a d (new_events w w') = registered a w'.
Proof.
  intros Henv Hev.
  inversion Hev as [| |? ? ? ? ? w1 ? Hloop Hret| | | | |]; subst.
  inversion Hret; subst.
  destruct (eval_adds_only (ForEach a d 0) _ _ Henv I Hloop)
    as (Hp & l & Hl & _ & Hc).
  rewrite trace_assign, <-app_assoc in Hl.
  rewrite (new_events_app _ _ _ Hl).
  assert (calls a d ([EvMerge a (spread (get a w) value)] ++ l)
          = registered a w') as Heq.
  { by rewrite calls_app, Hc. }
  rewrite Heq. split; [|done].
  specialize (Hp a). rewrite subscribers_assign in Hp.
  unfold registered. destruct Hp as [k ->]. rewrite present_app.
  by apply prefix_app_r.
Qed.

End Notification.

(** ** Subscribers that only read *)

Lemma invocations_app l1 l2 :
  invocations (l1 ++ l2) = invocations l1 ++ invocations l2.
Proof. apply omap_app. Qed.

Lemma calls_invocations a d tr :
  calls a d tr
  = omap (λ '(b, d', cb), if decide (b = a ∧ d' = d) then Some cb else None)
      (invocations tr).
Proof.
  induction tr as [|e tr IH]; [done|].
  change (e :: tr) with ([e] ++ tr).
  rewrite calls_app, invocations_app, omap_app, IH. f_equal.
  by destruct e.
Qed.

Lemma calls_of_loop a d l tr :
  invocations tr = (λ cb, (a, d, cb)) <$> l → calls a d tr = l.
Proof.
  intros Heq. rewrite calls_invocations, Heq. clear Heq.
  induction l as [|c l IH]; [done|].
  rewrite fmap_cons. simpl. rewrite decide_True by done. simpl.
  f_equal. exact IH.
Qed.

Section Readers.

Variable env : cbid → prog.

(** Code that only reads returns, and leaves nothing but its reads in
    the trace. *)
Lemma reader_runs d p w :
  reader p →
  ∃ l, eval env (Run d p) w (MkWorld (stores w) (trace w ++ l)) ∧
       invocations l = [].
Proof.
  intros Hr. revert w. induction Hr as [|a k _ IH]; intros w.
  - exists []. rewrite app_nil_r. destruct w. split; [constructor|done].
  - destruct (IH (get a w) (emit (EvGet a (get a w)) w)) as (l & Hev & Hl).
    exists (EvGet a (get a w) :: l). split; [|done].
    constructor. simpl in Hev. by rewrite <-app_assoc in Hev.
Qed.

(** The loop over subscribers that only read visits every slot from
    its index on. *)
Lemma foreach_readers a d suffix :
  ∀ i w,
    drop i (subscribers (inst a w)) = suffix →
    (∀ cb, Some cb ∈ suffix → reader (env cb)) →
    ∃ l, eval env (ForEach a d i) w (MkWorld (stores w) (trace w ++ l)) ∧
         invocations l = (λ cb, (a, d, cb)) <$> present suffix.
Proof.
  induction suffix as [|e suffix IH]; intros i w Hdrop Hread.
  - assert (subscribers (inst a w) !! i = None) as Hi.
    { apply lookup_ge_None. apply (f_equal length) in Hdrop.
      rewrite length_drop, length_nil in Hdrop. lia. }
    exists []. rewrite app_nil_r. destruct w as [st tr]. split; [|done].
    by apply eval_end.
  - assert (subscribers (inst a w) !! i = Some e) as Hi.
    { rewrite <-(Nat.add_0_r i), <-lookup_drop, Hdrop. done. }
    assert (drop (S i) (subscribers (inst a w)) = suffix) as Hdrop'.
    { rewrite (drop_S _ _ _ Hi) in Hdrop. by simplify_eq. }
    destruct e as [cb|].
    + destruct (reader_runs (S d) (env cb) (emit (EvCall a d cb) w))
        as (l1 & Hev1 & Hl1).
      { apply Hread. left. }
      destruct (IH (S i) (MkWorld (stores (emit (EvCall a d cb) w))
                        (trace (emit (EvCall a d cb) w) ++ l1)))
        as (l2 & Hev2 & Hl2); [done| |].
      { intros c Hc. apply Hread. by right. }
      exists (EvCall a d cb :: l1 ++ l2). split.
      * eapply eval_call; [done|exact Hev1|].
        replace (trace w ++ EvCall a d cb :: l1 ++ l2)
          with (((trace w ++ [EvCall a d cb]) ++ l1) ++ l2)
          by (by rewrite <-!app_assoc).
        exact Hev2.
      * change (invocations ([EvCall a d cb] ++ l1 ++ l2)
                = (a, d, cb) :: ((λ cb, (a, d, cb)) <$> present suffix)).
        by rewrite !invocations_app, Hl1, Hl2.
    + destruct (IH (S i) w) as (l & Hev & Hl); [done| |].
      { intros c Hc. apply Hread. by right. }
      exists l. split; [|done]. by eapply eval_skip.
Qed.

(** A [set] on a store whose subscribers only read. *)
Lemma set_readers d a value w :
  (∀ cb, cb ∈ registered a w → reader (env cb)) →
  ∃ fuel w',
    set env fuel d a value w = Some w' ∧
    stores w' = stores (assign a value w) ∧
    new_events w w' ≠ [] ∧
    head (new_events w w') = Some (EvMerge a (spread (get a w) value)) ∧
    invocations (new_events w w') = (λ cb, (a, d, cb)) <$> registered a w.
Proof.
  intros Hread.
  destruct (foreach_readers a d (subscribers (inst a w)) 0 (assign a value w))
    as (l & Hev & Hl).
  { by rewrite subscribers_assign. }
  { intros cb Hcb. apply Hread. by apply elem_of_present. }
  set (w' := MkWorld (stores (assign a value w))
               (trace (assign a value w) ++ l)) in *.
  assert (eval env (Run d (SetP a value Ret)) w w') as Hset.
  { eapply eval_set; [exact Hev|constructor]. }
  destruct (eval_exec _ _ _ _ Hset) as [fuel Hfuel].
  exists fuel, w'. split; [done|]. split; [done|].
  assert (new_events w w' = EvMerge a (spread (get a w) value) :: l) as ->.
  { apply new_events_app. subst w'. simpl. by rewrite <-app_assoc. }
  split_and!; done.
Qed.

End Readers.

(** The call-backs a [set] invokes when the subscribers only read. *)
Lemma readers_calls env d a value w :
  (∀ cb, cb ∈ registered a w → reader (env cb)) →
  ∃ fuel w', set env fuel d a value w = Some w' ∧
             calls a d (new_events w w') = registered a w.
Proof.
  intros Hread.
  destruct (set_readers env d a value w Hread)
    as (fuel & w' & Hset & _ & _ & _ & Hinv).
  exists fuel, w'. split; [done|]. by apply calls_of_loop.
Qed.

(** ** Frames *)

Section Frames.

Variable env : cbid → prog.

(** A call-back that is not registered and that nobody subscribes is
    never invoked. *)
Lemma eval_not_subscribed a cb t w w' :
  (∀ c, no_subscribe_of a cb (env c)) → quiet_task a cb t →
  cb ∉ registered a w →
  eval env t w w' →
  (cb ∉ registered a w') ∧
  ∃ l, trace w' = trace w ++ l ∧ ∀ d, EvCall a d cb ∉ l.
Proof.
  intros Henv Ht Hout Hev. unfold registered in *. induction Hev as
    [d w|d b k w w' _ IH|d b value k w w1 w' _ IH1 _ IH2
    |d b c k w w' _ IH|d b c k w w' _ IH
    |b d i w Hi|b d i w w' Hi _ IH
    |b d i c w w1 w' Hi _ IH1 _ IH2]; simpl in Ht.
  - split; [done|]. exists []. rewrite app_nil_r.
    split; [done|intros ?]; apply not_elem_of_nil.
  - inversion Ht as [|? ? Hk| | |]; subst.
    destruct (IH (Hk _) Hout) as (Ho & l & Hl & Hc). split; [done|].
    exists (EvGet b (get b w) :: l).
    rewrite Hl, trace_emit, <-app_assoc. split; [done|].
    intros ?. apply not_elem_of_cons. split; [done|]. apply Hc.
  - inversion Ht as [| |? ? ? Hk| |]; subst.
    destruct IH1 as (Ho1 & l1 & Hl1 & Hc1); [done| |].
    { by rewrite subscribers_assign. }
    destruct (IH2 Hk Ho1) as (Ho2 & l2 & Hl2 & Hc2). split; [done|].
    exists (EvMerge b (spread (get b w) value) :: l1 ++ l2).
    rewrite Hl2, Hl1, trace_assign, <-!app_assoc. split; [done|].
    intros ?. apply not_elem_of_cons. split; [done|].
    apply not_elem_of_app. split; auto.
  - inversion Ht as [| | |? ? ? Hne Hk|]; subst.
    apply IH; [done|]. destruct (decide (b = a)) as [->|Hba].
    + rewrite subscribers_subscribe, present_set_add.
      case_decide; [done|]. apply not_elem_of_app. split; [done|].
      apply not_elem_of_cons. split; [congruence|apply not_elem_of_nil].
    + by rewrite subscribers_subscribe_ne.
  - inversion Ht as [| | | |? ? ? Hk]; subst.
    apply IH; [done|]. destruct (decide (b = a)) as [->|Hba].
    + rewrite subscribers_unsubscribe, present_set_delete.
      rewrite list_elem_of_filter. tauto.
    + by rewrite subscribers_unsubscribe_ne.
  - split; [done|]. exists []. rewrite app_nil_r.
    split; [done|intros ?]; apply not_elem_of_nil.
  - by apply IH.
  - destruct (IH1 (Henv c) Hout) as (Ho1 & l1 & Hl1 & Hc1).
    destruct (IH2 Ht Ho1) as (Ho2 & l2 & Hl2 & Hc2). split; [done|].
    exists (EvCall b d c :: l1 ++ l2).
    rewrite Hl2, Hl1, trace_emit, <-!app_assoc. split; [done|].
    intros d'. apply not_elem_of_cons. split.
    + intros [= <- <- <-]. apply Hout, elem_of_present.
      by eapply list_elem_of_lookup_2.
    + apply not_elem_of_app. split; auto.
Qed.

End Frames.

(** ** Termination of re-entrant [set] *)

Lemma tame_stores μ p w1 w2 :
  stores w1 = stores w2 → tame μ p w1 → tame μ p w2.
Proof.
  destruct w1 as [st tr1], w2 as [st2 tr2]. simpl. intros ->.
  revert tr1 tr2. induction p as [|a k IH|a value k IH|a cb k IH|a cb k IH];
    intros tr1 tr2 Ht; try done.
  simpl in *. exact (IH _ _ _ Ht).
Qed.

Section Termination.

Variable env : cbid → prog.
Variable μ : gmap handle instance → nat.
Hypothesis env_tame : ∀ cb w, tame μ (env cb) w.

Lemma tame_settles n :
  ∀ w, μ (stores w) ≤ n →
    (∀ d p, tame μ p w → settles env μ (Run d p) w) ∧
    (∀ a d i, settles env μ (ForEach a d i) w).
Proof.
  induction n as [n IHn] using lt_wf_ind.
  assert (∀ p w d, μ (stores w) ≤ n → tame μ p w →
            settles env μ (Run d p) w)
    as Hrun.
  { induction p as [|a k IHk|a value k IHk|a cb k IHk|a cb k IHk];
      intros w d Hn Ht; try done.
    - exists w. split_and!; [constructor|done|done].
    - destruct (IHk (get a w) (emit (EvGet a (get a w)) w) d)
        as (w' & Hev & Hle & Hsub); [done| |].
      { eapply tame_stores; [|exact Ht]. done. }
      exists w'. split_and!; [by constructor|done|done].
    - destruct Ht as [Hlt Hk].
      destruct (IHn (μ (stores (assign a value w))) ltac:(lia)
                  (assign a value w) ltac:(done)) as [_ Hloop].
      destruct (Hloop a d 0) as (w1 & Hev1 & Hle1 & Hsub1).
      destruct (IHk w1 d) as (w' & Hev2 & Hle2 & Hsub2); [lia|by apply Hk|].
      exists w'. split_and!; [by econstructor|lia|].
      intros b. by rewrite Hsub2, Hsub1, subscribers_assign. }
  intros w Hn. split; [intros; by apply Hrun|].
  intros a d i.
  remember (length (subscribers (inst a w)) - i) as k eqn:Hk.
  revert i w Hn Hk. induction k as [k IHk] using lt_wf_ind.
  intros i w Hn Hk.
  destruct (subscribers (inst a w) !! i) as [[cb|]|] eqn:Hi.
  - pose proof (lookup_lt_Some _ _ _ Hi) as Hlt.
    destruct (Hrun (env cb) (emit (EvCall a d cb) w) (S d))
      as (w1 & Hev1 & Hle1 & Hsub1); [done|apply env_tame|].
    destruct (IHk (length (subscribers (inst a w1)) - S i)) with (S i) w1
      as (w' & Hev2 & Hle2 & Hsub2).
    { rewrite Hsub1, inst_emit. lia. }
    { simpl in Hle1. lia. }
    { done. }
    exists w'. split_and!; [by eapply eval_call|simpl in Hle1; lia|].
    intros b. by rewrite Hsub2, Hsub1.
  - pose proof (lookup_lt_Some _ _ _ Hi) as Hlt.
    destruct (IHk (length (subscribers (inst a w)) - S i)) with (S i) w
      as (w' & Hev2 & Hle2 & Hsub2); [lia|done|done|].
    exists w'. split_and!; [by eapply eval_skip|done|done].
  - exists w. split_and!; [by apply eval_end|done|done].
Qed.

(** Every [set] returns. *)
Lemma tame_set_returns d a value w :
  ∃ fuel w', set env fuel d a value w = Some w'.
Proof.
  destruct (tame_settles (μ (stores (assign a value w)))
              (assign a value w) ltac:(done)) as [_ Hloop].
  destruct (Hloop a d 0) as (w' & Hev & _).
  assert (eval env (Run d (SetP a value Ret)) w w') as Hset.
  { eapply eval_set; [exact Hev|constructor]. }
  destruct (eval_exec _ _ _ _ Hset) as [fuel Hfuel].
  by exists fuel, w'.
Qed.

End Termination.

(** * The properties of the specification *)

Lemma set_inv env d a value w w' :
  eval env (Run d (SetP a value Ret)) w w' →
  eval env (ForEach a d 0) (assign a value w) w' ∧
  ∃ l, new_events w w' = EvMerge a (spread (get a w) value) :: l.
Proof.
  intros Hev.
  inversion Hev as [| |? ? ? ? ? w1 ? Hloop Hret| | | | |]; subst.
  inversion Hret; subst. split; [done|].
  destruct (eval_trace _ _ _ _ Hloop) as [l Hl].
  exists l. apply new_events_app.
  by rewrite Hl, trace_assign, <-app_assoc.
Qed.

Lemma spread_lookup (cur patch : obj) k :
  spread cur patch !! k
  = match patch !! k with Some v => Some v | None => cur !! k end.
Proof.
  unfold spread. destruct (patch !! k) as [v|] eqn:Hk.
  - by apply lookup_union_Some_l.
  - by rewrite lookup_union_r.
Qed.

(** ** Shallow merge *)

(** A nested aggregate named by the patch replaces the old one as a
    whole: the field [age] of the old [user] is gone. *)
Example spread_replaces_nested :
  spread {[ "user" := VObj {[ "name" := VStr "x"; "age" := VNum 1 ]};
            "n" := VNum 0 ]}
         {[ "user" := VObj {[ "name" := VStr "y" ]} ]}
  = {[ "user" := VObj {[ "name" := VStr "y" ]}; "n" := VNum 0 ]}.
Proof. vm_compute. reflexivity. Qed.

(** C1.  [set(patch)] assigns to the store the shallow merge of the
    patch over the previous value: a field of the patch replaces the old
    field, whatever the two hold (a nested aggregate is replaced as a
    whole), and a field the patch does not have keeps its value.  The
    merged value is the first thing a [set] that returns has produced,
    and when it returns [get] gives the value most recently assigned;
    when the subscribers only read, the [set] returns and [get] gives
    the merge. *)
Theorem set_shallow_merge env d a value w :
  (∀ k, spread (get a w) value !! k
        = match value !! k with
          | Some v => Some v
          | None => get a w !! k
          end) ∧
  (∀ fuel w', set env fuel d a value w = Some w' →
     head (new_events w w') = Some (EvMerge a (spread (get a w) value)) ∧
     get a w' = last_assigned a (get a w) (new_events w w')) ∧
  ((∀ cb, cb ∈ registered a w → reader (env cb)) →
   ∃ fuel w', set env fuel d a value w = Some w' ∧
              get a w' = spread (get a w) value).
Proof.
  split_and!.
  - intros k. apply spread_lookup.
  - intros fuel w' Hset. apply exec_eval in Hset.
    destruct (set_inv _ _ _ _ _ _ Hset) as (_ & l & Hl). split.
    + by rewrite Hl.
    + destruct (eval_reads_current env a _ _ _ Hset) as (l' & Hl' & Hg & _).
      by rewrite (new_events_app _ _ _ Hl').
  - intros Hread.
    destruct (set_readers env d a value w Hread)
      as (fuel & w' & Hset & Hst & _).
    exists fuel, w'. split; [done|].
    unfold get, inst. rewrite Hst. apply get_assign.
Qed.

(** From [{ a: 1, b: 2 }], [set({ b: 3 })] gives [{ a: 1, b: 3 }]. *)
Lemma set_shallow_merge_witness :
  (∀ cb, cb ∈ registered 0 ab_world → reader (idle cb)) ∧
  ∃ fuel w', set idle fuel 0 0 {[ "b" := VNum 3 ]} ab_world = Some w' ∧
             get 0 w' = {[ "a" := VNum 1; "b" := VNum 3 ]}.
Proof.
  assert (∀ cb, cb ∈ registered 0 ab_world → reader (idle cb)) as Hread
    by (intros; constructor).
  split; [exact Hread|].
  destruct (set_shallow_merge idle 0 0 {[ "b" := VNum 3 ]} ab_world)
    as (_ & _ & Hset).
  destruct (Hset Hread) as (fuel & w' & Hrun & Hget).
  exists fuel, w'. split; [exact Hrun|].
  rewrite Hget. vm_compute. reflexivity.
Defined.

(** ** Reading the store *)



(** ** Subscribing *)

Lemma no_set_runs env d p w :
  no_set p →
  ∃ w', eval env (Run d p) w w' ∧
        (∃ l, trace w' = trace w ++ l ∧ invocations l = []) ∧
        ∀ b, get b w' = get b w.
Proof.
  intros Hp. revert w. induction Hp as
    [|a k _ IH|a cb k _ IH|a cb k _ IH]; intros w.
  - exists w. split_and!; [constructor| |done].
    exists []. by rewrite app_nil_r.
  - destruct (IH (get a w) (emit (EvGet a (get a w)) w))
      as (w' & Hev & (l & Hl & Hinv) & Hg).
    exists w'. split_and!; [by constructor| |done].
    exists (EvGet a (get a w) :: l). split; [|done].
    by rewrite Hl, trace_emit, <-app_assoc.
  - destruct (IH (subscribe a cb w)) as (w' & Hev & Htr & Hg).
    exists w'. split_and!; [by constructor|done|].
    intros b. by rewrite Hg, get_subscribe.
  - destruct (IH (unsubscribe a cb w)) as (w' & Hev & Htr & Hg).
    exists w'. split_and!; [by constructor|done|].
    intros b. by rewrite Hg, get_unsubscribe.
Qed.

(** C7.  [subscribe] and the unsubscribe closure invoke nobody and leave
    the value of every store as it is; code that never calls [set],
    whatever it subscribes and unsubscribes, returns without any
    call-back having been invoked and without any store value having
    changed. *)
Theorem subscribe_only_registers env a cb w :
  trace (subscribe a cb w) = trace w ∧
  (∀ b, get b (subscribe a cb w) = get b w) ∧
  trace (unsubscribe a cb w) = trace w ∧
  (∀ b, get b (unsubscribe a cb w) = get b w) ∧
  (∀ d p, no_set p →
     ∃ fuel w', exec env fuel (Run d p) w = Some w' ∧
                invocations (new_events w w') = [] ∧
                ∀ b, get b w' = get b w).
Proof.
  split_and!; try done.
  - intros b. apply get_subscribe.
  - intros b. apply get_unsubscribe.
  - intros d p Hp.
    destruct (no_set_runs env d p w Hp) as (w' & Hev & (l & Hl & Hinv) & Hg).
    destruct (eval_exec _ _ _ _ Hev) as [fuel Hfuel].
    exists fuel, w'. split_and!; [done| |done].
    by rewrite (new_events_app _ _ _ Hl).
Qed.

(** Subscribing, reading and unsubscribing on the sample store. *)
Lemma subscribe_only_registers_witness :
  no_set (Subscribe 0 7 (Get 0 (λ _, Unsubscribe 0 0 Ret))) ∧
  ∃ fuel w',
    exec observer fuel (Run 0 (Subscribe 0 7 (Get 0 (λ _, Unsubscribe 0 0 Ret))))
      ab_world = Some w' ∧
    invocations (new_events ab_world w') = [] ∧
    get 0 w' = ab.
Proof.
  assert (no_set (Subscribe 0 7 (Get 0 (λ _, Unsubscribe 0 0 Ret)))) as Hp
    by (repeat constructor).
  split; [exact Hp|].
  destruct (subscribe_only_registers observer 0 7 ab_world)
    as (_ & _ & _ & _ & Hrun).
  destruct (Hrun 0 _ Hp) as (fuel & w' & Hex & Hinv & Hget).
  exists fuel, w'. split_and!; [exact Hex|exact Hinv|].
  rewrite Hget. vm_compute. reflexivity.
Defined.

(** ** The guard of [useStore] *)

(** C9.  [useStore] with no [Provider] above it throws the error
    [Store not found!]; with a provider above it, and so below every
    [Provider] of the context, it returns the selected value of the
    store of the nearest one. *)
Theorem useStore_requires_provider {T : Type} (selector : obj → T) w :
  useStore selector [] w = inl (Error "Store not found!") ∧
  (∀ store providers,
     useStore selector (store :: providers) w
     = inr (selector (get store w), store)) ∧
  (∀ initialState providers w0,
     useStore selector (Provider initialState providers w0).1
       (Provider initialState providers w0).2
     = inr (selector initialState, fresh (dom (stores w0)))).
Proof.
  split_and!; try done.
  intros s ps w0. unfold Provider, useStoreData, useStore. simpl.
  unfold get, inst. simpl. by rewrite lookup_insert_eq.
Qed.

(** ** Re-entrancy *)



Lemma counter_no_unsubscribe cb : no_unsubscribe (counter cb).
Proof.
  destruct cb as [|cb]; simpl; [|constructor].
  constructor. intros s. destruct (count_of s <? 3)%Z; repeat constructor.
Qed.

Lemma count_of_spread (s : obj) n :
  count_of (spread s {[ "count" := VNum n ]}) = n.
Proof.
  unfold count_of. rewrite spread_lookup. by rewrite lookup_singleton_eq.
Qed.

Lemma counter_tame cb w : tame counter_measure (counter cb) w.
Proof.
  destruct cb as [|cb]; simpl; [|done].
  destruct (Z.ltb (count_of (get 0 w)) 3) eqn:Hlt; simpl; [|done].
  split; [|done].
  unfold counter_measure. simpl. rewrite lookup_insert_eq. simpl.
  change (current (inst 0 w)) with (get 0 w).
  rewrite count_of_spread.
  change (default _ (stores w !! 0)) with (inst 0 w).
  change (current (inst 0 w)) with (get 0 w).
  apply Z.ltb_lt in Hlt. lia.
Qed.


(** ** New stores *)

Lemma useStoreData_fresh s w :
  ((useStoreData s w).1 ∉ dom (stores w)) ∧
  (useStoreData s w).1 ∈ dom (stores (useStoreData s w).2) ∧
  inst (useStoreData s w).1 (useStoreData s w).2 = Instance s [] ∧
  ∀ b, b ≠ (useStoreData s w).1 → inst b (useStoreData s w).2 = inst b w.
Proof.
  unfold useStoreData, inst; simpl. split_and!.
  - apply is_fresh.
  - rewrite dom_insert_L. set_solver.
  - by rewrite lookup_insert_eq.
  - intros b Hb. by rewrite lookup_insert_ne.
Qed.

(** ** Unsubscribing *)

Lemma set_delete_idem cb l : set_delete cb (set_delete cb l) = set_delete cb l.
Proof. apply set_delete_absent, set_delete_gone. Qed.

Lemma unsubscribe_idem a cb w :
  unsubscribe a cb (unsubscribe a cb w) = unsubscribe a cb w.
Proof.
  unfold unsubscribe at 1. unfold update. rewrite subscribers_unsubscribe.
  rewrite set_delete_idem.
  unfold unsubscribe at 2 3 4, update. simpl.
  rewrite insert_insert_eq. f_equal. f_equal.
  unfold inst at 1. simpl. by rewrite lookup_insert_eq.
Qed.

(** C6.  After [subscribe(cb)] the call-back is registered.  Calling the
    unsubscribe closure, then or at any later time, takes exactly [cb]
    out of the registry of that store and changes nothing else; a
    second call changes nothing at all and returns [false]; and from
    then on, as long as nobody subscribes [cb] to the store again, no
    [set] of the store invokes it. *)
Theorem unsubscribe_removes a cb w :
  cb ∈ registered a (subscribe a cb w) ∧
  registered a (unsubscribe a cb w) = filter (λ c, c ≠ cb) (registered a w) ∧
  (∀ b, get b (unsubscribe a cb w) = get b w) ∧
  (∀ b, b ≠ a → inst b (unsubscribe a cb w) = inst b w) ∧
  unsubscribe a cb (unsubscribe a cb w) = unsubscribe a cb w ∧
  unsubscribe_result a cb (unsubscribe a cb w) = false ∧
  (∀ env fuel d p w',
     (∀ c, no_subscribe_of a cb (env c)) → no_subscribe_of a cb p →
     exec env fuel (Run d p) (unsubscribe a cb w) = Some w' →
     ∀ d', EvCall a d' cb ∉ new_events (unsubscribe a cb w) w').
Proof.
  split_and!.
  - unfold registered. rewrite subscribers_subscribe, present_set_add.
    case_decide; [done|]. apply elem_of_app. right. left.
  - unfold registered. by rewrite subscribers_unsubscribe, present_set_delete.
  - intros b. apply get_unsubscribe.
  - intros b Hb. unfold unsubscribe. by rewrite inst_update_ne.
  - apply unsubscribe_idem.
  - unfold unsubscribe_result, set_has. rewrite subscribers_unsubscribe.
    apply bool_decide_eq_false. apply set_delete_gone.
  - intros env fuel d p w' Henv Hp Hex d'. apply exec_eval in Hex.
    assert (cb ∉ registered a (unsubscribe a cb w)) as Hout.
    { unfold registered.
      rewrite subscribers_unsubscribe, elem_of_present.
      apply set_delete_gone. }
    destruct (eval_not_subscribed env a cb (Run d p) _ _ Henv Hp Hout Hex)
      as (_ & l & Hl & Hc).
    rewrite (new_events_app _ _ _ Hl). apply Hc.
Qed.

(** The end-to-end scenario: after the unsubscribe of call-back 0 a
    [set] invokes call-back 1 only. *)
Lemma unsubscribe_removes_witness :
  (∀ c, no_subscribe_of 0 0 (observer c)) ∧
  no_subscribe_of 0 0 (SetP 0 {[ "b" := VNum 3 ]} Ret) ∧
  ∃ w', exec observer 10 (Run 0 (SetP 0 {[ "b" := VNum 3 ]} Ret))
          (unsubscribe 0 0 ab_world) = Some w' ∧
        invocations (new_events (unsubscribe 0 0 ab_world) w') = [(0, 0, 1)] ∧
        ∀ d', EvCall 0 d' 0 ∉ new_events (unsubscribe 0 0 ab_world) w'.
Proof.
  assert (∀ c, no_subscribe_of 0 0 (observer c)) as Henv
    by (intros; repeat constructor).
  assert (no_subscribe_of 0 0 (SetP 0 {[ "b" := VNum 3 ]} Ret)) as Hp
    by (repeat constructor).
  split; [exact Henv|]. split; [exact Hp|].
  destruct (exec observer 10 (Run 0 (SetP 0 {[ "b" := VNum 3 ]} Ret))
              (unsubscribe 0 0 ab_world)) as [w'|] eqn:Hrun;
    [|vm_compute in Hrun; discriminate].
  exists w'. split; [reflexivity|].
  destruct (unsubscribe_removes 0 0 ab_world) as (_ & _ & _ & _ & _ & _ & Hno).
  split; [|exact (Hno observer 10 0 _ w' Henv Hp Hrun)].
  vm_compute in Hrun. simplify_eq. vm_compute. reflexivity.
Defined.

(** ** The registry is a set *)

Lemma set_add_idem cb l : set_add cb (set_add cb l) = set_add cb l.
Proof.
  unfold set_add at 1. rewrite decide_True; [done|].
  unfold set_add. case_decide; [done|]. apply elem_of_app. right. left.
Qed.

Lemma subscribe_idem a cb w :
  subscribe a cb (subscribe a cb w) = subscribe a cb w.
Proof.
  unfold subscribe at 1. unfold update. rewrite subscribers_subscribe.
  rewrite set_add_idem.
  unfold subscribe at 2 3 4, update. simpl.
  rewrite insert_insert_eq. f_equal. f_equal.
  unfold inst at 1. simpl. by rewrite lookup_insert_eq.
Qed.

Lemma registry_ok_subscribe a b cb w :
  registry_ok a w → registry_ok a (subscribe b cb w).
Proof.
  unfold registry_ok, registered. intros Hok.
  destruct (decide (b = a)) as [->|Hne].
  - rewrite subscribers_subscribe. by apply NoDup_present_set_add.
  - by rewrite subscribers_subscribe_ne.
Qed.

Lemma registry_ok_unsubscribe a b cb w :
  registry_ok a w → registry_ok a (unsubscribe b cb w).
Proof.
  unfold registry_ok, registered. intros Hok.
  destruct (decide (b = a)) as [->|Hne].
  - rewrite subscribers_unsubscribe. by apply NoDup_present_set_delete.
  - by rewrite subscribers_unsubscribe_ne.
Qed.



(** ** Sequences of subscriptions *)

Lemma registered_subscribe a cb w :
  registered a (subscribe a cb w)
  = if decide (cb ∈ registered a w) then registered a w
    else registered a w ++ [cb].
Proof. unfold registered. by rewrite subscribers_subscribe, present_set_add. Qed.

Lemma registered_subscribe_all a cbs w :
  registered a (subscribe_all a cbs w) = append_new (registered a w) cbs.
Proof.
  unfold subscribe_all, append_new. revert w.
  induction cbs as [|cb cbs IH]; intros w; [done|].
  simpl. by rewrite IH, registered_subscribe.
Qed.

Lemma append_new_fresh l cbs :
  NoDup (l ++ cbs) → append_new l cbs = l ++ cbs.
Proof.
  unfold append_new. revert l. induction cbs as [|cb cbs IH]; intros l Hnd.
  - by rewrite app_nil_r.
  - simpl. apply NoDup_app in Hnd as (Hl & Hdisj & Hcbs).
    rewrite decide_False by (intros Hin; apply (Hdisj _ Hin); left).
    rewrite IH; [by rewrite <-app_assoc|].
    rewrite <-app_assoc. apply NoDup_app. split_and!; done.
Qed.

(** * Further properties of the code *)

(** ** Subscribing during a notification *)

(** X1.  [forEach] walks the live registry: when no call-back
    unsubscribes, the call-backs the loop of a [set] has invoked when it
    returns are exactly the registry at that time, in order.  A
    call-back subscribed during the notification is therefore notified
    in the same round, after the ones that were there before. *)
Theorem added_subscribers_are_notified env fuel d a value w w'
    (Henv : ∀ cb, no_unsubscribe (env cb))
    (Hset : set env fuel d a value w = Some w') :
  calls a d (new_events w w') = registered a w' ∧
  registered a w `prefix_of` registered a w'.
Proof.
  apply exec_eval in Hset.
  destruct (set_adds_only env d a value w w' Henv Hset) as [Hpre Heq].
  split; [done|]. by rewrite <-Heq.
Qed.

(** Call-back 0 subscribes call-back 5, which is notified in the same
    round. *)
Lemma added_subscribers_are_notified_witness :
  (∀ cb, no_unsubscribe (recruiter cb)) ∧
  ∃ w', set recruiter 10 0 0 ∅ ab_world = Some w' ∧
        registered 0 ab_world = [0; 1] ∧
        calls 0 0 (new_events ab_world w') = [0; 1; 5].
Proof.
  assert (∀ cb, no_unsubscribe (recruiter cb)) as Henv
    by (intros [|cb]; repeat constructor).
  split; [exact Henv|].
  destruct (set recruiter 10 0 0 ∅ ab_world) as [w'|] eqn:Hrun;
    [|vm_compute in Hrun; discriminate].
  exists w'. split; [reflexivity|]. split; [vm_compute; reflexivity|].
  destruct (added_subscribers_are_notified recruiter 10 0 0 ∅ ab_world w'
              Henv Hrun) as [-> _].
  vm_compute in Hrun. simplify_eq. vm_compute. reflexivity.
Defined.

(** ** Calls that never return *)

Lemma registered_lookup a cb w :
  cb ∈ registered a w ↔ ∃ j, subscribers (inst a w) !! j = Some (Some cb).
Proof.
  unfold registered. rewrite elem_of_present. apply list_elem_of_lookup.
Qed.

Lemma set_diverges_aux env a cb v k :
  (∀ c, no_unsubscribe (env c)) → env cb = SetP a v k →
  ∀ fuel,
    (∀ d w value k',
       cb ∈ registered a w →
       exec env fuel (Run d (SetP a value k')) w = None) ∧
    (∀ d i w j,
       i ≤ j → subscribers (inst a w) !! j = Some (Some cb) →
       exec env fuel (ForEach a d i) w = None).
Proof.
  intros Henv Hcb. induction fuel as [|fuel [IHset IHloop]]; [done|]. split.
  - intros d w value k' [j Hj]%registered_lookup. simpl.
    rewrite (IHloop d 0 (assign a value w) j); [done|lia|].
    by rewrite subscribers_assign.
  - intros d i w j Hij Hj. simpl.
    destruct (subscribers (inst a w) !! i) as [[c|]|] eqn:Hi.
    + destruct (decide (c = cb)) as [->|Hne].
      * rewrite Hcb, IHset; [done|]. apply registered_lookup. by exists j.
      * assert (i ≠ j) by (intros ->; congruence).
        destruct (exec env fuel (Run (S d) (env c)) (emit (EvCall a d c) w))
          as [w1|] eqn:Hrun; [|done]. simpl.
        apply exec_eval in Hrun.
        destruct (eval_adds_only env (Run (S d) (env c)) _ _ Henv (Henv c) Hrun)
          as [Hpre _].
        apply (IHloop d (S i) w1 j); [lia|].
        eapply prefix_lookup_Some; [|apply Hpre]. done.
    + assert (i ≠ j) by (intros ->; congruence).
      apply (IHloop d (S i) w j); [lia|done].
    + apply lookup_ge_None in Hi. apply lookup_lt_Some in Hj. lia.
Qed.

(** X2.  A registered call-back that calls [set] of its store whenever
    it is notified makes every [set] of that store recurse without end,
    as long as no call-back unsubscribes: no amount of fuel lets the
    call return. *)
Theorem unconditional_reentrant_set_never_returns env a cb v k d value w
    (Henv : ∀ c, no_unsubscribe (env c))
    (Hcb : env cb = SetP a v k)
    (Hin : cb ∈ registered a w) :
  ∀ fuel, set env fuel d a value w = None.
Proof.
  intros fuel.
  destruct (set_diverges_aux env a cb v k Henv Hcb fuel) as [Hset _].
  by apply Hset.
Qed.

Lemma unconditional_reentrant_set_never_returns_witness :
  (∀ c, no_unsubscribe (echo c)) ∧
  echo 0 = SetP 0 ∅ Ret ∧
  0 ∈ registered 0 ab_world ∧
  ∀ fuel, set echo fuel 0 0 {[ "b" := VNum 3 ]} ab_world = None.
Proof.
  assert (∀ c, no_unsubscribe (echo c)) as Henv
    by (intros [|c]; repeat constructor).
  assert (0 ∈ registered 0 ab_world) as Hin
    by (apply (bool_decide_unpack (0 ∈ registered 0 ab_world));
        vm_compute; exact I).
  split; [exact Henv|]. split; [reflexivity|]. split; [exact Hin|].
  exact (unconditional_reentrant_set_never_returns echo 0 0 ∅ Ret 0
           {[ "b" := VNum 3 ]} ab_world Henv eq_refl Hin).
Defined.

Lemma reader_stores env d p w w' :
  reader p → eval env (Run d p) w w' → stores w' = stores w.
Proof.
  intros Hr. revert w. induction Hr as [|a k _ IH]; intros w Hev.
  - by inversion Hev.
  - inversion Hev as [|? ? ? ? ? Hk| | | | | |]; subst.
    by rewrite (IH _ _ Hk).
Qed.

Lemma inst_stores a w1 w2 : stores w1 = stores w2 → inst a w1 = inst a w2.
Proof. unfold inst. by intros ->. Qed.

Lemma resubscribe_slots cb (l : list (option cbid)) :
  set_add cb (set_delete cb l) = set_delete cb l ++ [Some cb].
Proof.
  unfold set_add. rewrite decide_False; [done|]. apply set_delete_gone.
Qed.

Lemma length_set_delete cb l : length (set_delete cb l) = length l.
Proof. unfold set_delete. apply length_fmap. Qed.

Lemma restless_loop env a cb :
  env cb = Unsubscribe a cb (Subscribe a cb Ret) →
  (∀ c, c ≠ cb → reader (env c)) →
  ∀ fuel d i w j,
    i ≤ j → subscribers (inst a w) !! j = Some (Some cb) →
    exec env fuel (ForEach a d i) w = None.
Proof.
  intros Hcb Hread. induction fuel as [|fuel IH]; [done|].
  intros d i w j Hij Hj. simpl.
  destruct (subscribers (inst a w) !! i) as [[c|]|] eqn:Hi.
  - destruct (exec env fuel (Run (S d) (env c)) (emit (EvCall a d c) w))
      as [w1|] eqn:Hrun; [|done]. simpl.
    apply exec_eval in Hrun.
    destruct (decide (c = cb)) as [->|Hne].
    + rewrite Hcb in Hrun.
      inversion Hrun as [| | | |? ? ? ? ? ? Hrun1| | |]; subst.
      inversion Hrun1 as [| | |? ? ? ? ? ? Hrun2| | | |]; subst.
      inversion Hrun2; subst.
      apply (IH d (S i) _ (length (subscribers (inst a w)))).
      * apply lookup_lt_Some in Hi. lia.
      * rewrite subscribers_subscribe, subscribers_unsubscribe, inst_emit.
        rewrite resubscribe_slots.
        rewrite lookup_app_r by (by rewrite length_set_delete).
        by rewrite length_set_delete, Nat.sub_diag.
    + assert (i ≠ j) by (intros ->; congruence).
      apply (IH d (S i) w1 j); [lia|].
      rewrite (inst_stores a w1 (emit (EvCall a d c) w)); [done|].
      by eapply reader_stores; [apply Hread|].
  - assert (i ≠ j) by (intros ->; congruence).
    apply (IH d (S i) w j); [lia|done].
  - apply lookup_ge_None in Hi. apply lookup_lt_Some in Hj. lia.
Qed.

(** X3.  A registered call-back that unsubscribes and subscribes itself
    again whenever it is notified is put back at the end of the registry
    the loop is walking, so the [forEach] reaches it again and again: a
    [set] of that store never returns (the other call-backs only read). *)
Theorem resubscribing_callback_never_returns env a cb d value w
    (Hcb : env cb = Unsubscribe a cb (Subscribe a cb Ret))
    (Hread : ∀ c, c ≠ cb → reader (env c))
    (Hin : cb ∈ registered a w) :
  ∀ fuel, set env fuel d a value w = None.
Proof.
  intros [|fuel]; [done|]. unfold set. simpl.
  apply registered_lookup in Hin as [j Hj].
  rewrite (restless_loop env a cb Hcb Hread fuel d 0 (assign a value w) j);
    [done|lia|]. by rewrite subscribers_assign.
Qed.

Lemma resubscribing_callback_never_returns_witness :
  restless 0 = Unsubscribe 0 0 (Subscribe 0 0 Ret) ∧
  (∀ c, c ≠ 0 → reader (restless c)) ∧
  0 ∈ registered 0 ab_world ∧
  ∀ fuel, set restless fuel 0 0 ∅ ab_world = None.
Proof.
  assert (∀ c, c ≠ 0 → reader (restless c)) as Hread
    by (intros [|c] Hc; [done|constructor]).
  assert (0 ∈ registered 0 ab_world) as Hin
    by (apply (bool_decide_unpack (0 ∈ registered 0 ab_world));
        vm_compute; exact I).
  split; [reflexivity|]. split; [exact Hread|]. split; [exact Hin|].
  exact (resubscribing_callback_never_returns restless 0 0 0 ∅ ab_world
           eq_refl Hread Hin).
Defined.

(** ** Several [set] calls in a row *)

Lemma spread_assoc (s p q : obj) :
  spread (spread s p) q = spread s (spread p q).
Proof. unfold spread. apply (assoc_L (∪)). Qed.

Lemma spread_empty_l (p : obj) : spread ∅ p = p.
Proof. unfold spread. apply (right_id_L ∅ (∪)). Qed.

Lemma foldl_spread (s : obj) patches :
  foldl spread s patches = spread s (foldl spread ∅ patches).
Proof.
  revert s. induction patches as [|p patches IH]; intros s; simpl.
  - unfold spread. symmetry. apply (left_id_L ∅ (∪)).
  - rewrite IH, (IH (spread ∅ p)), spread_empty_l. by rewrite spread_assoc.
Qed.

Lemma set_each_readers env d a patches :
  ∀ w,
    (∀ cb, cb ∈ registered a w → reader (env cb)) →
    ∃ w' l,
      eval env (Run d (set_each a patches)) w w' ∧
      trace w' = trace w ++ l ∧
      get a w' = foldl spread (get a w) patches ∧
      registered a w' = registered a w ∧
      calls a d l = mjoin (replicate (length patches) (registered a w)).
Proof.
  induction patches as [|p patches IH]; intros w Hread.
  - exists w, []. rewrite app_nil_r. split_and!; try done. constructor.
  - destruct (foreach_readers env a d (subscribers (inst a w)) 0
                (assign a p w)) as (l1 & Hev1 & Hl1).
    { by rewrite subscribers_assign. }
    { intros cb Hcb. apply Hread. by apply elem_of_present. }
    set (w1 := MkWorld (stores (assign a p w)) (trace (assign a p w) ++ l1))
      in *.
    assert (inst a w1 = inst a (assign a p w)) as Hinst by done.
    assert (registered a w1 = registered a w) as Hreg.
    { unfold registered. by rewrite Hinst, subscribers_assign. }
    destruct (IH w1) as (w' & l2 & Hev2 & Hl2 & Hget & Hreg' & Hcalls).
    { intros cb Hcb. apply Hread. by rewrite <-Hreg. }
    exists w', (EvMerge a (spread (get a w) p) :: l1 ++ l2). split_and!.
    + simpl. by eapply eval_set.
    + rewrite Hl2. subst w1. simpl. by rewrite <-!app_assoc.
    + rewrite Hget. simpl. f_equal. unfold get. rewrite Hinst.
      apply get_assign.
    + by rewrite Hreg'.
    + change (calls a d ([EvMerge a (spread (get a w) p)] ++ l1 ++ l2)
              = registered a w
                ++ mjoin (replicate (length patches) (registered a w))).
      rewrite !calls_app, Hcalls, Hreg.
      by rewrite (calls_of_loop a d (registered a w) l1 Hl1).
Qed.



(** ** Fields are never removed *)

Lemma dom_spread (s p : obj) : dom (spread s p) = dom p ∪ dom s.
Proof. unfold spread. apply dom_union_L. Qed.

Lemma eval_fields env a t w w' :
  eval env t w w' → dom (get a w) ⊆ dom (get a w').
Proof.
  induction 1 as
    [d w|d b k w w' _ IH|d b value k w w1 w' _ IH1 _ IH2
    |d b cb k w w' _ IH|d b cb k w w' _ IH
    |b d i w Hi|b d i w w' Hi _ IH
    |b d i cb w w1 w' Hi _ IH1 _ IH2]; try done.
  - etrans; [|apply IH2]. etrans; [|apply IH1].
    destruct (decide (b = a)) as [->|Hne].
    + rewrite get_assign, dom_spread. set_solver.
    + by rewrite get_assign_ne.
  - by rewrite get_subscribe in IH.
  - by rewrite get_unsubscribe in IH.
  - etrans; [|apply IH2]. done.
Qed.

(** X5.  The merge of line 35 can add fields and replace fields but
    never removes one: whatever code runs, call-backs included, a field
    that a store value has before is still there afterwards, and so are
    the fields of the patch of a [set] that has returned. *)
Theorem fields_are_never_removed env fuel d p a w w'
    (Hrun : exec env fuel (Run d p) w = Some w') :
  dom (get a w) ⊆ dom (get a w') ∧
  ∀ value k, p = SetP a value k → dom value ⊆ dom (get a w').
Proof.
  apply exec_eval in Hrun. split; [by eapply eval_fields|].
  intros value k ->.
  inversion Hrun as [| |? ? ? ? ? w1 ? Hloop Hk| | | | |]; subst.
  etrans; [|eapply eval_fields; exact Hk].
  etrans; [|eapply eval_fields; exact Hloop].
  rewrite get_assign, dom_spread. set_solver.
Qed.

Lemma fields_are_never_removed_witness :
  ∃ w', exec counter 20 (Run 0 (SetP 0 {[ "x" := VUndef ]} Ret)) counter_world
        = Some w' ∧
        dom (get 0 counter_world) ⊆ dom (get 0 w') ∧
        get 0 w' = {[ "count" := VNum 3; "x" := VUndef ]}.
Proof.
  destruct (exec counter 20 (Run 0 (SetP 0 {[ "x" := VUndef ]} Ret))
              counter_world) as [w'|] eqn:Hrun;
    [|vm_compute in Hrun; discriminate].
  exists w'. split; [reflexivity|].
  split; [exact (proj1 (fields_are_never_removed counter 20 0 _ 0 _ _ Hrun))|].
  vm_compute in Hrun. simplify_eq. vm_compute. reflexivity.
Defined.

(** ** Subscribing and unsubscribing, composed *)

Lemma filter_absent (cb : cbid) (l : list cbid) :
  cb ∉ l → filter (λ c, c ≠ cb) l = l.
Proof.
  induction l as [|x l IH]; intros Hn; [done|].
  apply not_elem_of_cons in Hn as [Hne Hn].
  rewrite filter_cons_True by congruence. by rewrite IH.
Qed.

Lemma registered_unsubscribe a cb w :
  registered a (unsubscribe a cb w) = filter (λ c, c ≠ cb) (registered a w).
Proof.
  unfold registered. by rewrite subscribers_unsubscribe, present_set_delete.
Qed.

(** X6.  Subscribing a call-back that was not registered and then
    calling the unsubscribe closure gives back the registry there was:
    the same call-backs in the same order, and the same store values. *)
Theorem subscribe_then_unsubscribe a cb w (Hnew : cb ∉ registered a w) :
  (∀ b, registered b (unsubscribe a cb (subscribe a cb w)) = registered b w) ∧
  (∀ b, get b (unsubscribe a cb (subscribe a cb w)) = get b w) ∧
  unsubscribe_result a cb (subscribe a cb w) = true.
Proof.
  split_and!.
  - intros b. destruct (decide (a = b)) as [<-|Hne].
    + rewrite registered_unsubscribe, registered_subscribe.
      rewrite decide_False by done.
      rewrite filter_app, filter_absent by done.
      rewrite filter_cons_False by (by intros []). by rewrite app_nil_r.
    + unfold registered.
      by rewrite subscribers_unsubscribe_ne, subscribers_subscribe_ne.
  - intros b. by rewrite get_unsubscribe, get_subscribe.
  - unfold unsubscribe_result, set_has. rewrite subscribers_subscribe.
    apply bool_decide_eq_true. unfold set_add. case_decide; [done|].
    apply elem_of_app. right. left.
Qed.

Lemma subscribe_then_unsubscribe_witness :
  (7 ∉ registered 0 ab_world) ∧
  registered 0 (unsubscribe 0 7 (subscribe 0 7 ab_world)) = [0; 1].
Proof.
  assert (7 ∉ registered 0 ab_world) as Hnew
    by (apply (bool_decide_unpack (7 ∉ registered 0 ab_world));
        vm_compute; exact I).
  split; [exact Hnew|].
  destruct (subscribe_then_unsubscribe 0 7 ab_world Hnew) as (Hreg & _).
  rewrite Hreg. vm_compute. reflexivity.
Defined.



(** ** Call-backs that unsubscribe themselves *)

Lemma run_leaves_only env d a cb p :
  leaves_only a cb p →
  ∀ w, ∃ w' l,
    eval env (Run d p) w w' ∧
    trace w' = trace w ++ l ∧ invocations l = [] ∧
    (∀ b, get b w' = get b w) ∧
    (subscribers (inst a w') = subscribers (inst a w) ∨
     subscribers (inst a w') = set_delete cb (subscribers (inst a w))) ∧
    (∀ k, p = Unsubscribe a cb k →
          subscribers (inst a w') = set_delete cb (subscribers (inst a w))).
Proof.
  induction 1 as [|b k _ IH|k _ IH]; intros w.
  - exists w, []. rewrite app_nil_r. split_and!; try done; [constructor|by left].
  - destruct (IH (get b w) (emit (EvGet b (get b w)) w))
      as (w' & l & Hev & Hl & Hinv & Hget & Hsub & _).
    exists w', (EvGet b (get b w) :: l). split_and!; try done.
    + by constructor.
    + by rewrite Hl, trace_emit, <-app_assoc.
  - destruct (IH (unsubscribe a cb w))
      as (w' & l & Hev & Hl & Hinv & Hget & Hsub & _).
    assert (subscribers (inst a w') = set_delete cb (subscribers (inst a w)))
      as Hdel.
    { destruct Hsub as [->| ->]; rewrite subscribers_unsubscribe; [done|].
      apply set_delete_idem. }
    exists w', l. split_and!; try done.
    + by constructor.
    + intros b. by rewrite Hget, get_unsubscribe.
    + by right.
Qed.

Lemma drop_set_delete cb (l : list (option cbid)) i :
  Some cb ∉ drop i l → drop i (set_delete cb l) = drop i l.
Proof.
  intros Hn. unfold set_delete. rewrite <-fmap_drop.
  by apply set_delete_absent.
Qed.

Lemma foreach_leaving env a d suffix :
  ∀ i w,
    drop i (subscribers (inst a w)) = suffix →
    NoDup (present suffix) →
    (∀ c, Some c ∈ suffix → leaves_only a c (env c)) →
    ∃ w' l,
      eval env (ForEach a d i) w w' ∧
      trace w' = trace w ++ l ∧
      invocations l = (λ c, (a, d, c)) <$> present suffix ∧
      (∀ b, get b w' = get b w) ∧
      (∀ c, c ∈ registered a w' → c ∈ registered a w) ∧
      (∀ c k, Some c ∈ suffix → env c = Unsubscribe a c k →
              c ∉ registered a w').
Proof.
  induction suffix as [|e suffix IH]; intros i w Hdrop Hnd Hcode.
  - assert (subscribers (inst a w) !! i = None) as Hi.
    { apply lookup_ge_None. apply (f_equal length) in Hdrop.
      rewrite length_drop, length_nil in Hdrop. lia. }
    exists w, []. rewrite app_nil_r. split_and!; try done.
    + by apply eval_end.
    + intros c k Hc. by apply elem_of_nil in Hc.
  - assert (subscribers (inst a w) !! i = Some e) as Hi.
    { rewrite <-(Nat.add_0_r i), <-lookup_drop, Hdrop. done. }
    assert (drop (S i) (subscribers (inst a w)) = suffix) as Hdrop'.
    { rewrite (drop_S _ _ _ Hi) in Hdrop. by simplify_eq. }
    destruct e as [c|].
    + change (present (Some c :: suffix)) with (c :: present suffix) in *.
      apply NoDup_cons in Hnd as [Hc Hnd].
      destruct (run_leaves_only env (S d) a c (env c)
                  ltac:(apply Hcode; left) (emit (EvCall a d c) w))
        as (w1 & l1 & Hev1 & Hl1 & Hinv1 & Hget1 & Hsub1 & Hgone1).
      rewrite inst_emit in Hsub1, Hgone1.
      assert (drop (S i) (subscribers (inst a w1)) = suffix) as Hdrop1.
      { destruct Hsub1 as [->| ->]; [done|].
        rewrite drop_set_delete; [done|].
        rewrite Hdrop'. by rewrite <-elem_of_present. }
      assert (∀ x, x ∈ registered a w1 → x ∈ registered a w) as Hsub.
      { intros x. unfold registered. destruct Hsub1 as [->| ->]; [done|].
        rewrite present_set_delete, list_elem_of_filter. tauto. }
      destruct (IH (S i) w1 Hdrop1 Hnd)
        as (w' & l2 & Hev2 & Hl2 & Hinv2 & Hget2 & Hsub2 & Hgone2).
      { intros x Hx. apply Hcode. by right. }
      exists w', (EvCall a d c :: l1 ++ l2). split_and!.
      * by eapply eval_call.
      * by rewrite Hl2, Hl1, trace_emit, <-!app_assoc.
      * change (invocations ([EvCall a d c] ++ l1 ++ l2)
                = (a, d, c) :: ((λ c, (a, d, c)) <$> present suffix)).
        by rewrite !invocations_app, Hinv1, Hinv2.
      * intros b. by rewrite Hget2, Hget1.
      * intros x Hx. by apply Hsub, Hsub2.
      * intros x k Hx Hk. apply elem_of_cons in Hx as [Hx|Hx].
        -- simplify_eq. intros Hin%Hsub2. revert Hin. unfold registered.
           rewrite (Hgone1 k Hk), elem_of_present. apply set_delete_gone.
        -- by eapply Hgone2.
    + destruct (IH (S i) w Hdrop' Hnd)
        as (w' & l & Hev & Hl & Hinv & Hget & Hsub & Hgone).
      { intros x Hx. apply Hcode. by right. }
      exists w', l. split_and!; try done.
      * by eapply eval_skip.
      * intros x k Hx Hk. apply elem_of_cons in Hx as [Hx|Hx]; [done|].
        by eapply Hgone.
Qed.

(** X8.  A call-back may call its own unsubscribe closure while it is
    being notified without disturbing the round: when the registered
    call-backs only read and unsubscribe themselves, a [set] returns
    after having invoked every one of them once, in order; nobody is
    skipped, nobody new is registered, and a call-back that starts by
    unsubscribing itself is no longer registered afterwards. *)
Theorem self_unsubscribing_is_safe env d a value w
    (Hok : registry_ok a w)
    (Hcode : ∀ c, c ∈ registered a w → leaves_only a c (env c)) :
  ∃ fuel w',
    set env fuel d a value w = Some w' ∧
    calls a d (new_events w w') = registered a w ∧
    get a w' = spread (get a w) value ∧
    (∀ c, c ∈ registered a w' → c ∈ registered a w) ∧
    (∀ c k, c ∈ registered a w → env c = Unsubscribe a c k →
            c ∉ registered a w').
Proof.
  destruct (foreach_leaving env a d (subscribers (inst a w)) 0
              (assign a value w))
    as (w' & l & Hev & Hl & Hinv & Hget & Hsub & Hgone).
  { by rewrite subscribers_assign. }
  { exact Hok. }
  { intros c Hc. apply Hcode. by apply elem_of_present. }
  assert (eval env (Run d (SetP a value Ret)) w w') as Hset.
  { eapply eval_set; [exact Hev|constructor]. }
  destruct (eval_exec _ _ _ _ Hset) as [fuel Hfuel].
  exists fuel, w'. split_and!.
  - done.
  - rewrite (new_events_app w w' (EvMerge a (spread (get a w) value) :: l)).
    + change (calls a d ([EvMerge a (spread (get a w) value)] ++ l)
              = registered a w).
      rewrite calls_app. by rewrite (calls_of_loop a d (registered a w) l Hinv).
    + by rewrite Hl, trace_assign, <-app_assoc.
  - by rewrite Hget, get_assign.
  - intros c Hc. apply Hsub in Hc. unfold registered in *.
    by rewrite subscribers_assign in Hc.
  - intros c k Hc Hk. eapply Hgone; [|exact Hk]. by apply elem_of_present.
Qed.

(** Both subscribers of the sample store listen once. *)
Lemma self_unsubscribing_is_safe_witness :
  registry_ok 0 ab_world ∧
  (∀ c, c ∈ registered 0 ab_world → leaves_only 0 c (once c)) ∧
  ∃ fuel w',
    set once fuel 0 0 {[ "b" := VNum 3 ]} ab_world = Some w' ∧
    calls 0 0 (new_events ab_world w') = [0; 1] ∧
    registered 0 w' = [].
Proof.
  assert (registry_ok 0 ab_world) as Hok
    by (apply (bool_decide_unpack (NoDup (registered 0 ab_world)));
        vm_compute; exact I).
  assert (∀ c, c ∈ registered 0 ab_world → leaves_only 0 c (once c)) as Hcode
    by (intros; repeat constructor).
  split; [exact Hok|]. split; [exact Hcode|].
  destruct (self_unsubscribing_is_safe once 0 0 {[ "b" := VNum 3 ]} ab_world
              Hok Hcode) as (fuel & w' & Hrun & Hcalls & _ & Hsub & Hgone).
  exists fuel, w'. split; [exact Hrun|]. split; [exact Hcalls|].
  destruct (registered 0 w') as [|c l] eqn:Hreg; [reflexivity|].
  exfalso. assert (c ∈ c :: l) as Hc by left.
  apply (Hgone c Ret (Hsub c Hc) eq_refl Hc).
Defined.

(** ** Providers and consumers *)

Lemma useStore_head {T : Type} (selector : obj → T) providers store w :
  head providers = Some store →
  useStore selector providers w = inr (selector (get store w), store).
Proof. unfold useStore, useContext. by intros ->. Qed.

Lemma inst_useStoreData s w b :
  b ∈ dom (stores w) → inst b (useStoreData s w).2 = inst b w.
Proof.
  intros Hb. destruct (useStoreData_fresh s w) as (Hfresh & _ & _ & Hother).
  apply Hother. intros ->. done.
Qed.

Lemma get_useStoreData_new s w :
  get (fresh (dom (stores w))) (useStoreData s w).2 = s.
Proof.
  destruct (useStoreData_fresh s w) as (_ & _ & Hnew & _).
  change (current (inst (useStoreData s w).1 (useStoreData s w).2) = s).
  by rewrite Hnew.
Qed.

Lemma get_useStoreData_old s w b :
  b ≠ fresh (dom (stores w)) → get b (useStoreData s w).2 = get b w.
Proof.
  intros Hb. unfold get.
  destruct (useStoreData_fresh s w) as (_ & _ & _ & Hother).
  by rewrite (Hother b Hb).
Qed.

Lemma fresh_twice s w :
  fresh (dom (stores (useStoreData s w).2)) ≠ fresh (dom (stores w)).
Proof.
  intros Heq.
  destruct (useStoreData_fresh s w) as (_ & Hin & _).
  apply (is_fresh (dom (stores (useStoreData s w).2))).
  rewrite Heq. exact Hin.
Qed.

(** X9.  Mounting a [Provider] creates its store without touching what
    is there: nothing is notified, every store created before keeps its
    value and its subscribers, and a consumer below an earlier provider
    reads what it read before. *)
Theorem Provider_leaves_other_stores_alone
    {T : Type} (selector : obj → T) initialState providers w :
  trace (Provider initialState providers w).2 = trace w ∧
  (∀ b, b ∈ dom (stores w) →
        inst b (Provider initialState providers w).2 = inst b w) ∧
  (∀ consumer store,
     head consumer = Some store → store ∈ dom (stores w) →
     useStore selector consumer (Provider initialState providers w).2
     = useStore selector consumer w).
Proof.
  split_and!.
  - done.
  - intros b Hb. by apply inst_useStoreData.
  - intros consumer store Hhead Hstore.
    rewrite !(useStore_head _ _ store) by done.
    unfold get. change (Provider initialState providers w).2
      with (useStoreData initialState w).2.
    by rewrite inst_useStoreData.
Qed.

Lemma Provider_leaves_other_stores_alone_witness :
  head [0] = Some 0 ∧ 0 ∈ dom (stores ab_world) ∧
  useStore (λ s, s !! "a") [0] (Provider ∅ [0] ab_world).2
  = inr (Some (VNum 1), 0).
Proof.
  assert (0 ∈ dom (stores ab_world)) as Hdom
    by (apply (bool_decide_unpack (0 ∈ dom (stores ab_world)));
        vm_compute; exact I).
  split; [reflexivity|]. split; [exact Hdom|].
  destruct (Provider_leaves_other_stores_alone (λ s : obj, s !! "a") ∅ [0]
              ab_world) as (_ & _ & Hsame).
  rewrite (Hsame [0] 0 eq_refl Hdom). vm_compute. reflexivity.
Defined.

(** X10.  Of two nested [Provider]s the nearest one wins: a consumer
    below both reads the store of the inner one, a consumer below the
    outer one only reads the store of the outer one, and the two stores
    are different. *)
Theorem nearest_Provider_wins
    {T : Type} (selector : obj → T) outer inner providers w :
  let above1 := (Provider outer providers w).1 in
  let w1 := (Provider outer providers w).2 in
  let above2 := (Provider inner above1 w1).1 in
  let w2 := (Provider inner above1 w1).2 in
  useStore selector above2 w2
  = inr (selector inner, fresh (dom (stores w1))) ∧
  useStore selector above1 w2
  = inr (selector outer, fresh (dom (stores w))) ∧
  fresh (dom (stores w1)) ≠ fresh (dom (stores w)).
Proof.
  intros above1 w1 above2 w2.
  assert (w1 = (useStoreData outer w).2) as Hw1 by done.
  assert (w2 = (useStoreData inner w1).2) as Hw2 by done.
  assert (head above1 = Some (fresh (dom (stores w)))) as Ha1 by done.
  assert (head above2 = Some (fresh (dom (stores w1)))) as Ha2 by done.
  clearbody above2 w2 above1 w1.
  assert (fresh (dom (stores w1)) ≠ fresh (dom (stores w))) as Hne.
  { rewrite Hw1. apply fresh_twice. }
  rewrite (useStore_head _ _ _ _ Ha2), (useStore_head _ _ _ _ Ha1).
  split_and!; [| |done].
  - by rewrite Hw2, get_useStoreData_new.
  - rewrite Hw2, get_useStoreData_old by done.
    by rewrite Hw1, get_useStoreData_new.
Qed.

(** X11.  The setter that [useStore] returns writes the store that
    [useStore] reads: after [set(value)] through it (the subscribers
    only read), the hook gives the selector applied to the merged
    value; and a selector of one field gives what it gave before when
    the patch does not name that field. *)
Theorem useStore_after_set
    {T : Type} env d (selector : obj → T) providers value w selected store
    (Hhook : useStore selector providers w = inr (selected, store))
    (Hread : ∀ cb, cb ∈ registered store w → reader (env cb)) :
  ∃ fuel w',
    set env fuel d store value w = Some w' ∧
    useStore selector providers w'
    = inr (selector (spread (get store w) value), store) ∧
    ∀ field, value !! field = None →
      useStore (λ s, s !! field) providers w'
      = useStore (λ s, s !! field) providers w.
Proof.
  assert (head providers = Some store) as Hhead.
  { unfold useStore, useContext in Hhook.
    destruct (head providers); by simplify_eq. }
  destruct (set_readers env d store value w Hread)
    as (fuel & w' & Hset & Hst & _).
  assert (get store w' = spread (get store w) value) as Hget.
  { unfold get. rewrite (inst_stores store w' (assign store value w) Hst).
    apply get_assign. }
  exists fuel, w'. split_and!; [done| |].
  - by rewrite (useStore_head _ _ store), Hget.
  - intros field Hfield. rewrite !(useStore_head _ _ store) by done.
    rewrite Hget, spread_lookup, Hfield. done.
Qed.

Lemma useStore_after_set_witness :
  useStore (λ s, s !! "b") [0] ab_world = inr (Some (VNum 2), 0) ∧
  (∀ cb, cb ∈ registered 0 ab_world → reader (observer cb)) ∧
  ∃ fuel w',
    set observer fuel 0 0 {[ "b" := VNum 3 ]} ab_world = Some w' ∧
    useStore (λ s, s !! "b") [0] w' = inr (Some (VNum 3), 0) ∧
    useStore (λ s, s !! "a") [0] w' = inr (Some (VNum 1), 0).
Proof.
  assert (useStore (λ s : obj, s !! "b") [0] ab_world = inr (Some (VNum 2), 0))
    as Hhook by (vm_compute; reflexivity).
  assert (∀ cb, cb ∈ registered 0 ab_world → reader (observer cb)) as Hread
    by (intros; repeat constructor).
  split; [exact Hhook|]. split; [exact Hread|].
  destruct (useStore_after_set observer 0 (λ s : obj, s !! "b") [0]
              {[ "b" := VNum 3 ]} ab_world _ 0 Hhook Hread)
    as (fuel & w' & Hrun & Hnew & Hsame).
  exists fuel, w'. split; [exact Hrun|]. split.
  - rewrite Hnew. vm_compute. reflexivity.
  - rewrite (Hsame "a") by (vm_compute; reflexivity).
    vm_compute. reflexivity.
Defined.

(** ** Contexts do not mix *)

Lemma providers_of_cons c x above :
  providers_of c (x :: above)
  = if decide (x.1 = c) then x.2 :: providers_of c above
    else providers_of c above.
Proof. unfold providers_of. simpl. by case_decide. Qed.

(** X12.  Every [createFastContext] has a context of its own.  The
    [useStore] of one fast context does not see the [Provider] of
    another: below that provider alone it throws [Store not found!],
    and below the providers of both, each [useStore] reads the store of
    its own provider, whichever is nearer. *)
Theorem contexts_do_not_mix
    {T : Type} (selector : obj → T) s1 s2 contexts above w :
  let fc1 := (createFastContext s1 contexts).1 in
  let fc2 := (createFastContext s2 (createFastContext s1 contexts).2).1 in
  StoreContext fc1 ≠ StoreContext fc2 ∧
  (providers_of (StoreContext fc1) above = [] →
   useStore_of fc1 selector (Provider_of fc2 above w).1
     (Provider_of fc2 above w).2 = inl (Error "Store not found!")) ∧
  (let above1 := (Provider_of fc1 above w).1 in
   let w1 := (Provider_of fc1 above w).2 in
   let above2 := (Provider_of fc2 above1 w1).1 in
   let w2 := (Provider_of fc2 above1 w1).2 in
   useStore_of fc1 selector above2 w2
   = inr (selector s1, fresh (dom (stores w))) ∧
   useStore_of fc2 selector above2 w2
   = inr (selector s2, fresh (dom (stores w1)))).
Proof.
  intros fc1 fc2.
  assert (StoreContext fc1 ≠ StoreContext fc2) as Hne by (simpl; lia).
  split_and!; [done| |].
  - intros Hnone.
    assert ((Provider_of fc2 above w).1
            = (S contexts, fresh (dom (stores w))) :: above) as -> by done.
    unfold useStore_of. rewrite providers_of_cons.
    rewrite decide_False by (simpl; lia). by rewrite Hnone.
  - intros above1 w1 above2 w2.
    assert (w1 = (useStoreData s1 w).2) as Hw1 by done.
    assert (w2 = (useStoreData s2 w1).2) as Hw2 by done.
    assert (above2 = (S contexts, fresh (dom (stores w1)))
                     :: (contexts, fresh (dom (stores w))) :: above)
      as Ha2 by done.
    clearbody above2 w2 above1 w1.
    assert (fresh (dom (stores w1)) ≠ fresh (dom (stores w))) as Hfresh.
    { rewrite Hw1. apply fresh_twice. }
    unfold useStore_of. rewrite Ha2.
    change (StoreContext fc1) with contexts.
    change (StoreContext fc2) with (S contexts).
    rewrite !providers_of_cons. simpl fst. simpl snd.
    rewrite (decide_False (P := S contexts = contexts)) by lia.
    rewrite !(decide_True (P := contexts = contexts)) by done.
    rewrite !(decide_True (P := S contexts = S contexts)) by done.
    rewrite (decide_False (P := contexts = S contexts)) by lia.
    rewrite (useStore_head _ _ (fresh (dom (stores w)))) by done.
    rewrite (useStore_head _ _ (fresh (dom (stores w1)))) by done.
    split.
    + rewrite Hw2, get_useStoreData_old by done.
      by rewrite Hw1, get_useStoreData_new.
    + by rewrite Hw2, get_useStoreData_new.
Qed.

Lemma contexts_do_not_mix_witness :
  providers_of 0 [] = [] ∧
  useStore_of (createFastContext ab 0).1 (λ s, s !! "a")
    (Provider_of (createFastContext ∅ 1).1 [] empty_world).1
    (Provider_of (createFastContext ∅ 1).1 [] empty_world).2
  = inl (Error "Store not found!").
Proof.
  split; [reflexivity|].
  destruct (contexts_do_not_mix (λ s : obj, s !! "a") ab ∅ 0 [] empty_world)
    as (_ & Herr & _).
  exact (Herr eq_refl).
Defined.

(** ** Unsubscribing others during a notification *)

Lemma emptied_refl l : emptied l l.
Proof. apply Forall2_same_length_lookup. split; [done|]. naive_solver. Qed.

Lemma emptied_trans l1 l2 l3 : emptied l1 l2 → emptied l2 l3 → emptied l1 l3.
Proof.
  unfold emptied. intros H12 H23.
  eapply Forall2_trans; [|exact H12|exact H23].
  intros x y z [->| ->] [->| ->]; auto.
Qed.

Lemma emptied_set_delete c l : emptied l (set_delete c l).
Proof.
  unfold emptied, set_delete. induction l as [|x l IH]; [constructor|].
  rewrite fmap_cons. constructor; [|exact IH]. case_decide; auto.
Qed.

Lemma emptied_length l l' : emptied l l' → length l' = length l.
Proof. intros H. symmetry. by eapply Forall2_length. Qed.

Lemma emptied_drop i l l' : emptied l l' → emptied (drop i l) (drop i l').
Proof. apply Forall2_drop. Qed.

Lemma emptied_present l l' : emptied l l' → present l' `sublist_of` present l.
Proof.
  induction 1 as [|x y l l' Hxy _ IH]; [done|].
  destruct Hxy as [->| ->].
  - destruct x as [c|]; [by apply sublist_skip|done].
  - destruct x as [c|]; [by apply sublist_cons|done].
Qed.

Lemma emptied_lookup l l' i x :
  emptied l l' → l !! i = Some x → l' !! i = Some x ∨ l' !! i = Some None.
Proof.
  intros H Hi.
  destruct (Forall2_lookup_l _ _ _ _ _ H Hi) as (y & Hy & [->| ->]); auto.
Qed.

Lemma run_removes_only env d p :
  removes_only p →
  ∀ w, ∃ w' l,
    eval env (Run d p) w w' ∧
    trace w' = trace w ++ l ∧ invocations l = [] ∧
    (∀ b, get b w' = get b w) ∧
    (∀ b, emptied (subscribers (inst b w)) (subscribers (inst b w'))).
Proof.
  induction 1 as [|b k _ IH|b c k _ IH]; intros w.
  - exists w, []. rewrite app_nil_r. split_and!; try done; [constructor|].
    intros b. apply emptied_refl.
  - destruct (IH (get b w) (emit (EvGet b (get b w)) w))
      as (w' & l & Hev & Hl & Hinv & Hget & Hsub).
    exists w', (EvGet b (get b w) :: l). split_and!; try done.
    + by constructor.
    + by rewrite Hl, trace_emit, <-app_assoc.
  - destruct (IH (unsubscribe b c w))
      as (w' & l & Hev & Hl & Hinv & Hget & Hsub).
    exists w', l. split_and!; try done.
    + by constructor.
    + intros x. by rewrite Hget, get_unsubscribe.
    + intros x. eapply emptied_trans; [|apply Hsub].
      destruct (decide (b = x)) as [->|Hne].
      * rewrite subscribers_unsubscribe. apply emptied_set_delete.
      * rewrite subscribers_unsubscribe_ne by done. apply emptied_refl.
Qed.

Lemma foreach_removing env a d :
  ∀ n i w,
    length (subscribers (inst a w)) - i ≤ n →
    (∀ c, c ∈ registered a w → removes_only (env c)) →
    ∃ w' l called,
      eval env (ForEach a d i) w w' ∧
      trace w' = trace w ++ l ∧
      invocations l = (λ c, (a, d, c)) <$> called ∧
      called `sublist_of` present (drop i (subscribers (inst a w))) ∧
      present (drop i (subscribers (inst a w'))) `sublist_of` called ∧
      (∀ b, get b w' = get b w) ∧
      emptied (subscribers (inst a w)) (subscribers (inst a w')).
Proof.
  induction n as [n IH] using lt_wf_ind. intros i w Hn Hcode.
  destruct (subscribers (inst a w) !! i) as [[c|]|] eqn:Hi.
  - pose proof (lookup_lt_Some _ _ _ Hi) as Hlt.
    destruct (run_removes_only env (S d) (env c)
                ltac:(apply Hcode, registered_lookup; by exists i)
                (emit (EvCall a d c) w))
      as (w1 & l1 & Hev1 & Hl1 & Hinv1 & Hget1 & Hsub1).
    specialize (Hsub1 a). rewrite inst_emit in Hsub1.
    destruct (IH (length (subscribers (inst a w1)) - S i)) with (S i) w1
      as (w' & l2 & called & Hev2 & Hl2 & Hinv2 & Hup & Hlow & Hget2 & Hsub2).
    { rewrite (emptied_length _ _ Hsub1). lia. }
    { done. }
    { intros x Hx. apply Hcode. unfold registered in *.
      eapply elem_of_sublist; [exact Hx|]. by apply emptied_present. }
    exists w', (EvCall a d c :: l1 ++ l2), (c :: called). split_and!.
    + by eapply eval_call.
    + by rewrite Hl2, Hl1, trace_emit, <-!app_assoc.
    + change (invocations ([EvCall a d c] ++ l1 ++ l2)
              = (a, d, c) :: ((λ c, (a, d, c)) <$> called)).
      by rewrite !invocations_app, Hinv1, Hinv2.
    + rewrite (drop_S _ _ _ Hi).
      change (present (Some c :: ?l)) with (c :: present l).
      apply sublist_skip. etrans; [exact Hup|].
      by apply emptied_present, emptied_drop.
    + destruct (emptied_lookup _ _ i _ (emptied_trans _ _ _ Hsub1 Hsub2) Hi)
        as [Hi'|Hi']; rewrite (drop_S _ _ _ Hi').
      * change (present (Some c :: ?l)) with (c :: present l).
        by apply sublist_skip.
      * change (present (None :: ?l)) with (present l).
        by apply sublist_cons.
    + intros b. by rewrite Hget2, Hget1.
    + by eapply emptied_trans.
  - pose proof (lookup_lt_Some _ _ _ Hi) as Hlt.
    destruct (IH (length (subscribers (inst a w)) - S i)) with (S i) w
      as (w' & l & called & Hev & Hl & Hinv & Hup & Hlow & Hget & Hsub);
      [lia|done|done|].
    exists w', l, called. split_and!; try done.
    + by eapply eval_skip.
    + by rewrite (drop_S _ _ _ Hi).
    + destruct (emptied_lookup _ _ i _ Hsub Hi) as [Hi'|Hi'];
        by rewrite (drop_S _ _ _ Hi').
  - exists w, [], []. rewrite app_nil_r.
    apply lookup_ge_None in Hi. split_and!; try done.
    + by apply eval_end, lookup_ge_None.
    + apply sublist_nil_l.
    + by rewrite drop_ge.
    + apply emptied_refl.
Qed.




(** * Notification, isolation and order *)

(** ** A [forEach] is a round *)

Lemma calls_get a d b s : calls a d [EvGet b s] = [].
Proof. done. Qed.

Lemma calls_merge a d b s : calls a d [EvMerge b s] = [].
Proof. done. Qed.

Section Rounds.

Variable env : cbid → prog.

(** Whatever the call-backs do, everything that happens within a task at
    depth [d] is tagged with a depth of [d] at least, and the world a
    [forEach] leaves is the one that running the bodies of the
    call-backs it has invoked, in that order, leaves. *)
Lemma eval_round t w w' :
  eval env t w w' →
  ∃ l, trace w' = trace w ++ l ∧
    match t with
    | Run d p => ∀ b d', d' < d → calls b d' l = []
    | ForEach a d i =>
        (∀ b d', d' < d → calls b d' l = []) ∧
        round env a d (calls a d l) w w'
    end.
Proof.
  induction 1 as
    [d w|d a k w w' _ (l & Hl & IH)
    |d a value k w w1 w' _ (l1 & Hl1 & IH1 & _) _ (l2 & Hl2 & IH2)
    |d a cb k w w' _ (l & Hl & IH)|d a cb k w w' _ (l & Hl & IH)
    |a d i w Hi|a d i w w' Hi _ (l & Hl & IH)
    |a d i cb w w1 w' Hi Hbody (l1 & Hl1 & IH1) _ (l2 & Hl2 & IH2 & Hround)].
  - exists []. by rewrite app_nil_r.
  - exists ([EvGet a (get a w)] ++ l).
    rewrite Hl, trace_emit, <-app_assoc. split; [done|].
    intros b d' Hd. by rewrite calls_app, calls_get, IH.
  - exists ([EvMerge a (spread (get a w) value)] ++ l1 ++ l2).
    rewrite Hl2, Hl1, trace_assign, <-!app_assoc. split; [done|].
    intros b d' Hd. by rewrite !calls_app, calls_merge, IH1, IH2.
  - by exists l.
  - by exists l.
  - exists []. rewrite app_nil_r. split_and!; [done|done|constructor].
  - by exists l.
  - exists ([EvCall a d cb] ++ l1 ++ l2).
    rewrite Hl2, Hl1, trace_emit, <-!app_assoc. split; [done|]. split.
    + intros b d' Hd. rewrite !calls_app, IH1, IH2 by lia.
      rewrite calls_call_ne; [done|]. intros [= _ ->]. lia.
    + rewrite !calls_app, calls_call, IH1 by lia.
      destruct (eval_exec _ _ _ _ Hbody) as [fuel Hfuel].
      by eapply round_cons.
Qed.

(** A [set] is the assignment followed by a round. *)
Lemma set_round fuel d a value w w' :
  set env fuel d a value w = Some w' →
  round env a d (calls a d (new_events w w')) (assign a value w) w'.
Proof.
  intros Hset. apply exec_eval in Hset.
  destruct (set_inv _ _ _ _ _ _ Hset) as (Hloop & l & Hl).
  destruct (eval_round _ _ _ Hloop) as (l' & Hl' & _ & Hround).
  assert (l' = l) as ->.
  { pose proof (eval_new_events _ _ _ _ Hset) as Htr.
    rewrite Hl, Hl', trace_assign, <-app_assoc in Htr.
    apply app_inv_head in Htr. simpl in Htr. congruence. }
  rewrite Hl.
  change (round env a d (calls a d l) (assign a value w) w').
  exact Hround.
Qed.

End Rounds.

(** ** Code that keeps away from a store *)

Lemma elem_of_invocations a d cb l :
  (a, d, cb) ∈ invocations l ↔ EvCall a d cb ∈ l.
Proof.
  unfold invocations. rewrite list_elem_of_omap. split.
  - intros (e & He & Heq). destruct e as [| |b d' c]; by simplify_eq.
  - intros He. by exists (EvCall a d cb).
Qed.

Lemma registered_outside a w : a ∉ dom (stores w) → registered a w = [].
Proof.
  intros Ha. unfold registered, inst. by rewrite (not_elem_of_dom_1 _ _ Ha).
Qed.

Section Confinement.

Variable env : cbid → prog.
Variable y : handle.
Variable R : cbid → Prop.
Hypothesis env_confined : ∀ cb, R cb → confined y R (env cb).

(** When the call-backs registered with the stores other than [y] are in
    [R], nothing that runs touches the instance of [y] or invokes a
    call-back that is not in [R], and it stays so. *)
Lemma eval_confined t w w' :
  confined_task y R t →
  (∀ a cb, a ≠ y → cb ∈ registered a w → R cb) →
  eval env t w w' →
  inst y w' = inst y w ∧
  (∀ a cb, a ≠ y → cb ∈ registered a w' → R cb) ∧
  ∃ l, trace w' = trace w ++ l ∧
       ∀ a d cb, EvCall a d cb ∈ l → R cb ∧ a ≠ y.
Proof.
  intros Ht Hreg Hev. induction Hev as
    [d w|d a k w w' _ IH|d a value k w w1 w' _ IH1 _ IH2
    |d a cb k w w' _ IH|d a cb k w w' _ IH
    |a d i w Hi|a d i w w' Hi _ IH
    |a d i cb w w1 w' Hi _ IH1 _ IH2]; simpl in Ht.
  - split_and!; [done|done|]. exists []. rewrite app_nil_r.
    split; [done|]. intros a d' cb Hin. by apply elem_of_nil in Hin.
  - inversion Ht as [|? ? Hk| | |]; subst.
    destruct (IH (Hk _) Hreg) as (Hi & Hreg' & l & Hl & Hc).
    split_and!; [done|done|]. exists (EvGet a (get a w) :: l).
    rewrite Hl, trace_emit, <-app_assoc. split; [done|].
    intros a' d' cb Hin. apply elem_of_cons in Hin as [?|Hin]; [done|].
    by eapply Hc.
  - inversion Ht as [| |? ? ? Hne Hk| |]; subst.
    destruct (IH1 Hne) as (Hi1 & Hreg1 & l1 & Hl1 & Hc1).
    { intros b cb Hb. unfold registered. rewrite subscribers_assign.
      by apply Hreg. }
    destruct (IH2 Hk Hreg1) as (Hi2 & Hreg2 & l2 & Hl2 & Hc2).
    split_and!; [|done|].
    + rewrite Hi2, Hi1. unfold assign. by rewrite inst_emit, inst_update_ne.
    + exists (EvMerge a (spread (get a w) value) :: l1 ++ l2).
      rewrite Hl2, Hl1, trace_assign, <-!app_assoc. split; [done|].
      intros a' d' cb Hin. apply elem_of_cons in Hin as [?|Hin]; [done|].
      apply elem_of_app in Hin as [Hin|Hin]; [by eapply Hc1|by eapply Hc2].
  - inversion Ht as [| | |? ? ? Hne Hcb Hk|]; subst.
    destruct (IH Hk) as (Hi & Hreg' & l & Hl & Hc).
    { intros b c Hb. destruct (decide (a = b)) as [->|Hab].
      - rewrite registered_subscribe. case_decide; [by apply Hreg|].
        intros [Hin|Hin]%elem_of_app; [by eapply Hreg|].
        apply list_elem_of_singleton in Hin. by subst.
      - unfold registered. rewrite subscribers_subscribe_ne by done.
        by apply Hreg. }
    split_and!; [|done|by exists l].
    rewrite Hi. unfold subscribe. by rewrite inst_update_ne.
  - inversion Ht as [| | | |? ? ? Hne Hk]; subst.
    destruct (IH Hk) as (Hi & Hreg' & l & Hl & Hc).
    { intros b c Hb. destruct (decide (a = b)) as [->|Hab].
      - rewrite registered_unsubscribe, list_elem_of_filter.
        intros [_ Hin]. by eapply Hreg.
      - unfold registered. rewrite subscribers_unsubscribe_ne by done.
        by apply Hreg. }
    split_and!; [|done|by exists l].
    rewrite Hi. unfold unsubscribe. by rewrite inst_update_ne.
  - split_and!; [done|done|]. exists []. rewrite app_nil_r.
    split; [done|]. intros a' d' cb Hin. by apply elem_of_nil in Hin.
  - by apply IH.
  - assert (R cb) as Hcb.
    { apply (Hreg a cb Ht), registered_lookup. by exists i. }
    destruct (IH1 (env_confined cb Hcb) Hreg) as (Hi1 & Hreg1 & l1 & Hl1 & Hc1).
    destruct (IH2 Ht Hreg1) as (Hi2 & Hreg2 & l2 & Hl2 & Hc2).
    split_and!; [by rewrite Hi2, Hi1|done|].
    exists (EvCall a d cb :: l1 ++ l2).
    rewrite Hl2, Hl1, trace_emit, <-!app_assoc. split; [done|].
    intros a' d' c Hin. apply elem_of_cons in Hin as [Heq|Hin].
    + by simplify_eq.
    + apply elem_of_app in Hin as [Hin|Hin]; [by eapply Hc1|by eapply Hc2].
Qed.

End Confinement.

(** ** Notification *)

Lemma reader_leaves_only a cb p : reader p → leaves_only a cb p.
Proof. induction 1; constructor; auto. Qed.

Lemma set_unique env fuel1 fuel2 d a value w w1 w2 :
  set env fuel1 d a value w = Some w1 →
  set env fuel2 d a value w = Some w2 → w1 = w2.
Proof.
  unfold set. intros H1 H2.
  apply (exec_mono env fuel1 (fuel1 `max` fuel2)) in H1; [|lia].
  apply (exec_mono env fuel2 (fuel1 `max` fuel2)) in H2; [|lia].
  congruence.
Qed.

(** C2, as the specification words it, fails: call-back 0 unsubscribes
    call-back 1 before the [forEach] reaches it, and the [set] returns
    without having invoked call-back 1. *)
Lemma unsubscribed_before_its_turn :
  ¬ notifies_every_subscriber remover 0 0 {[ "b" := VNum 2 ]} ab_world.
Proof.
  intros (fuel & w' & Hset & Hall).
  destruct (set remover 10 0 0 {[ "b" := VNum 2 ]} ab_world) as [w0|] eqn:Hrun;
    [|vm_compute in Hrun; discriminate].
  rewrite (set_unique _ _ _ _ _ _ _ _ _ Hset Hrun) in Hall.
  assert (1 ∈ registered 0 ab_world) as Hin
    by (apply (bool_decide_unpack (1 ∈ registered 0 ab_world));
        vm_compute; exact I).
  specialize (Hall 1 Hin).
  vm_compute in Hrun. injection Hrun as <-.
  vm_compute in Hall. discriminate Hall.
Qed.

(** C2, amended.  When the registered call-backs are distinct and do
    nothing to the stores but read them and, at most, unsubscribe
    themselves (no [set], no [subscribe], no unsubscribing of others), a
    [set] returns after a round over the call-backs registered when the
    notification began: the body of each has been run, once, in order,
    and nobody else has been invoked.  This holds for every patch:
    nothing compares the new value with the old one. *)
Theorem set_notifies_all env d a value w
    (Hcode : ∀ cb, cb ∈ registered a w → leaves_only a cb (env cb))
    (Hok : registry_ok a w) :
  ∃ fuel w',
    set env fuel d a value w = Some w' ∧
    round env a d (registered a w) (assign a value w) w' ∧
    invocations (new_events w w') = (λ cb, (a, d, cb)) <$> registered a w ∧
    (∀ cb, cb ∈ registered a w →
           occurrences cb (calls a d (new_events w w')) = 1).
Proof.
  destruct (foreach_leaving env a d (subscribers (inst a w)) 0
              (assign a value w))
    as (w' & l & Hev & Hl & Hinv & _).
  { by rewrite subscribers_assign. }
  { exact Hok. }
  { intros c Hc. apply Hcode. by apply elem_of_present. }
  assert (eval env (Run d (SetP a value Ret)) w w') as Hset.
  { eapply eval_set; [exact Hev|constructor]. }
  destruct (eval_exec _ _ _ _ Hset) as [fuel Hfuel].
  assert (new_events w w' = EvMerge a (spread (get a w) value) :: l) as Hnew.
  { apply new_events_app. by rewrite Hl, trace_assign, <-app_assoc. }
  assert (calls a d (new_events w w') = registered a w) as Hcalls.
  { rewrite Hnew.
    change (calls a d ([EvMerge a (spread (get a w) value)] ++ l)
            = registered a w).
    rewrite calls_app. by rewrite (calls_of_loop a d (registered a w) l Hinv). }
  exists fuel, w'. split_and!.
  - exact Hfuel.
  - rewrite <-Hcalls. by eapply set_round.
  - by rewrite Hnew.
  - intros cb Hcb. rewrite Hcalls. by apply occurrences_NoDup.
Qed.

(** Two subscribers that read the store, and a patch that changes
    nothing: both bodies run, as their reads show. *)
Lemma set_notifies_all_witness :
  (∀ cb, cb ∈ registered 0 ab_world → leaves_only 0 cb (observer cb)) ∧
  registry_ok 0 ab_world ∧
  ∃ fuel w',
    set observer fuel 0 0 {[ "b" := VNum 2 ]} ab_world = Some w' ∧
    round observer 0 0 [0; 1] (assign 0 {[ "b" := VNum 2 ]} ab_world) w' ∧
    new_events ab_world w'
    = [EvMerge 0 ab; EvCall 0 0 0; EvGet 0 ab; EvCall 0 0 1; EvGet 0 ab].
Proof.
  assert (∀ cb, cb ∈ registered 0 ab_world → leaves_only 0 cb (observer cb))
    as Hcode by (intros; repeat constructor).
  assert (registry_ok 0 ab_world) as Hok
    by (apply (bool_decide_unpack (NoDup (registered 0 ab_world)));
        vm_compute; exact I).
  split; [exact Hcode|]. split; [exact Hok|].
  destruct (set_notifies_all observer 0 0 {[ "b" := VNum 2 ]} ab_world
              Hcode Hok) as (fuel & w' & Hrun & Hround & _).
  exists fuel, w'. split; [exact Hrun|]. split; [exact Hround|].
  destruct (set observer 10 0 0 {[ "b" := VNum 2 ]} ab_world) as [w0|] eqn:Hten;
    [|vm_compute in Hten; discriminate].
  rewrite (set_unique _ _ _ _ _ _ _ _ _ Hrun Hten).
  vm_compute in Hten. simplify_eq. vm_compute. reflexivity.
Defined.

(** ** Isolation *)

(** C4.  Two calls of [useStoreData], even with the same initial value,
    give two different stores, each holding that value and no
    subscriber.  At any later time a [set] of one of them assigns to
    that store only and then runs the bodies of the call-backs its
    [forEach] invokes; and when the call-backs that can run (a set [R]
    that holds the call-backs registered with the stores other than the
    second one and those they subscribe) do not themselves call [set],
    [subscribe] or an unsubscribe closure of the second store, the
    instance of the second store, value and registry, is left as it
    was, and only call-backs of [R] are invoked: a call-back registered
    with the second store only is not invoked. *)
Theorem stores_isolated env s w :
  let A := (useStoreData s w).1 in
  let w1 := (useStoreData s w).2 in
  let B := (useStoreData s w1).1 in
  let w2 := (useStoreData s w1).2 in
  A ≠ B ∧
  get A w2 = s ∧ get B w2 = s ∧
  registered A w2 = [] ∧ registered B w2 = [] ∧
  (∀ fuel d p w3 w',
     set env fuel d A p w3 = Some w' →
     inst B (assign A p w3) = inst B w3 ∧
     round env A d (calls A d (new_events w3 w')) (assign A p w3) w' ∧
     ∀ R : cbid → Prop,
       (∀ cb, R cb → confined B R (env cb)) →
       (∀ a cb, a ≠ B → cb ∈ registered a w3 → R cb) →
       inst B w' = inst B w3 ∧
       ∀ a d' cb, (a, d', cb) ∈ invocations (new_events w3 w') →
                  R cb ∧ a ≠ B) ∧
  (∀ fuel d p w3 w',
     set env fuel d B p w3 = Some w' →
     inst A (assign B p w3) = inst A w3 ∧
     round env B d (calls B d (new_events w3 w')) (assign B p w3) w' ∧
     ∀ R : cbid → Prop,
       (∀ cb, R cb → confined A R (env cb)) →
       (∀ a cb, a ≠ A → cb ∈ registered a w3 → R cb) →
       inst A w' = inst A w3 ∧
       ∀ a d' cb, (a, d', cb) ∈ invocations (new_events w3 w') →
                  R cb ∧ a ≠ A).
Proof.
  intros A w1 B w2.
  destruct (useStoreData_fresh s w) as (HA1 & HA2 & HA3 & HA4).
  destruct (useStoreData_fresh s w1) as (HB1 & HB2 & HB3 & HB4).
  fold A in HA1, HA2, HA3, HA4. fold w1 in HA2, HA3, HA4.
  fold B in HB1, HB2, HB3, HB4. fold w2 in HB2, HB3, HB4.
  assert (A ≠ B) as Hne by (intros Heq; apply HB1; by rewrite <-Heq).
  assert (∀ x y fuel d p w3 w', x ≠ y →
            set env fuel d x p w3 = Some w' →
            inst y (assign x p w3) = inst y w3 ∧
            round env x d (calls x d (new_events w3 w')) (assign x p w3) w' ∧
            ∀ R : cbid → Prop,
              (∀ cb, R cb → confined y R (env cb)) →
              (∀ a cb, a ≠ y → cb ∈ registered a w3 → R cb) →
              inst y w' = inst y w3 ∧
              ∀ a d' cb, (a, d', cb) ∈ invocations (new_events w3 w') →
                         R cb ∧ a ≠ y) as Hframe.
  { intros x y fuel d p w3 w' Hxy Hset. split_and!.
    - unfold assign. by rewrite inst_emit, inst_update_ne.
    - by eapply set_round.
    - intros R Hclosed Hreg. apply exec_eval in Hset.
      assert (confined_task y R (Run d (SetP x p Ret))) as Ht.
      { simpl. constructor; [done|constructor]. }
      destruct (eval_confined env y R Hclosed _ _ _ Ht Hreg Hset)
        as (Hi & _ & l & Hl & Hc).
      split; [done|]. rewrite (new_events_app _ _ _ Hl).
      intros a d' cb Hin. apply elem_of_invocations in Hin. by eapply Hc. }
  split_and!.
  - done.
  - unfold get. by rewrite HB4, HA3.
  - unfold get. by rewrite HB3.
  - unfold registered. by rewrite HB4, HA3.
  - unfold registered. by rewrite HB3.
  - intros fuel d p w3 w'. by apply Hframe.
  - intros fuel d p w3 w'. by apply Hframe.
Qed.

Lemma two_stores_registered a cb w :
  dom (stores w) = {[0; 1]} → a ≠ 0 → a ≠ 1 → cb ∉ registered a w.
Proof.
  intros Hdom H0 H1. rewrite registered_outside; [apply not_elem_of_nil|].
  rewrite Hdom, not_elem_of_union, !not_elem_of_singleton. done.
Qed.

(** Call-back 5 is subscribed to the first store and call-back 6 to the
    second, and each reads its own store.  A [set] of the first store
    invokes 5 only and leaves the second store as it was; a [set] of the
    second store then invokes 6 only and leaves the first as it was. *)
Lemma stores_isolated_witness :
  (∀ cb, cb = 5 → confined 1 (λ c, c = 5) (neighbours cb)) ∧
  (∀ a cb, a ≠ 1 → cb ∈ registered a two_stores → cb = 5) ∧
  ∃ w',
    set neighbours 10 0 0 {[ "b" := VNum 3 ]} two_stores = Some w' ∧
    invocations (new_events two_stores w') = [(0, 0, 5)] ∧
    get 1 w' = ab ∧ registered 1 w' = [6] ∧
    (∀ cb, cb = 6 → confined 0 (λ c, c = 6) (neighbours cb)) ∧
    (∀ a cb, a ≠ 0 → cb ∈ registered a w' → cb = 6) ∧
    ∃ w'',
      set neighbours 10 0 1 {[ "a" := VNum 9 ]} w' = Some w'' ∧
      invocations (new_events w' w'') = [(1, 0, 6)] ∧
      get 0 w'' = {[ "a" := VNum 1; "b" := VNum 3 ]} ∧
      registered 0 w'' = [5] ∧
      get 1 w'' = {[ "a" := VNum 9; "b" := VNum 2 ]}.
Proof.
  destruct (stores_isolated neighbours ab empty_world)
    as (_ & _ & _ & _ & _ & HAB & HBA).
  assert (∀ cb, cb = 5 → confined 1 (λ c, c = 5) (neighbours cb)) as Hc1
    by (intros cb ->; repeat constructor).
  assert (∀ cb, cb = 6 → confined 0 (λ c, c = 6) (neighbours cb)) as Hc2
    by (intros cb ->; repeat constructor).
  assert (∀ a cb, a ≠ 1 → cb ∈ registered a two_stores → cb = 5) as Hreg1.
  { intros a cb Ha Hin. destruct (decide (a = 0)) as [->|H0].
    - assert (registered 0 two_stores = [5]) as Heq
        by (vm_compute; reflexivity).
      rewrite Heq in Hin. by apply list_elem_of_singleton in Hin.
    - exfalso. revert Hin. apply two_stores_registered; [|done|done].
      vm_compute. reflexivity. }
  split; [exact Hc1|]. split; [exact Hreg1|].
  destruct (set neighbours 10 0 0 {[ "b" := VNum 3 ]} two_stores)
    as [w'|] eqn:Hrun1; [|vm_compute in Hrun1; discriminate].
  destruct (HAB 10 0 {[ "b" := VNum 3 ]} two_stores w' Hrun1) as (_ & _ & HR1).
  destruct (HR1 (λ c, c = 5) Hc1 Hreg1) as [Hinst1 _].
  assert (get 1 w' = ab) as Hget1.
  { transitivity (get 1 two_stores); [exact (f_equal current Hinst1)|].
    vm_compute. reflexivity. }
  assert (registered 1 w' = [6]) as Hregd1.
  { transitivity (registered 1 two_stores);
      [exact (f_equal (λ i, present (subscribers i)) Hinst1)|].
    vm_compute. reflexivity. }
  assert (invocations (new_events two_stores w') = [(0, 0, 5)]) as Hinv1.
  { vm_compute in Hrun1. injection Hrun1 as <-. vm_compute. reflexivity. }
  assert (dom (stores w') = {[0; 1]}) as Hdom.
  { vm_compute in Hrun1. injection Hrun1 as <-. vm_compute. reflexivity. }
  assert (registered 0 w' = [5]) as Hregd0.
  { vm_compute in Hrun1. injection Hrun1 as <-. vm_compute. reflexivity. }
  assert (get 0 w' = {[ "a" := VNum 1; "b" := VNum 3 ]}) as Hget0.
  { vm_compute in Hrun1. injection Hrun1 as <-. vm_compute. reflexivity. }
  assert (∀ a cb, a ≠ 0 → cb ∈ registered a w' → cb = 6) as Hreg2.
  { intros a cb Ha Hin. destruct (decide (a = 1)) as [->|H1].
    - rewrite Hregd1 in Hin. by apply list_elem_of_singleton in Hin.
    - exfalso. revert Hin. by apply two_stores_registered. }
  exists w'. split; [reflexivity|]. split; [exact Hinv1|].
  split; [exact Hget1|]. split; [exact Hregd1|].
  split; [exact Hc2|]. split; [exact Hreg2|].
  destruct (set neighbours 10 0 1 {[ "a" := VNum 9 ]} w') as [w''|] eqn:Hrun2.
  - destruct (HBA 10 0 {[ "a" := VNum 9 ]} w' w'' Hrun2) as (_ & _ & HR2).
    destruct (HR2 (λ c, c = 6) Hc2 Hreg2) as [Hinst2 _].
    assert (get 0 w'' = {[ "a" := VNum 1; "b" := VNum 3 ]}) as Hget2.
    { transitivity (get 0 w'); [exact (f_equal current Hinst2)|exact Hget0]. }
    assert (registered 0 w'' = [5]) as Hregd2.
    { transitivity (registered 0 w');
        [exact (f_equal (λ i, present (subscribers i)) Hinst2)|exact Hregd0]. }
    exists w''. split; [reflexivity|].
    split; [|split; [exact Hget2|split; [exact Hregd2|]]].
    + vm_compute in Hrun1. injection Hrun1 as <-.
      vm_compute in Hrun2. injection Hrun2 as <-. vm_compute. reflexivity.
    + vm_compute in Hrun1. injection Hrun1 as <-.
      vm_compute in Hrun2. injection Hrun2 as <-. vm_compute. reflexivity.
  - exfalso. vm_compute in Hrun1. injection Hrun1 as <-.
    vm_compute in Hrun2. discriminate.
Defined.

(** ** Order of notification *)

(** C10, as worded, fails: the call-backs 0 and 1 are subscribed in that
    order, with no unsubscribe in between, and the [set] invokes 0 only,
    because 0 unsubscribes 1 before the [forEach] reaches it. *)
Lemma unsubscribed_breaks_order :
  ¬ notifies_in_subscription_order remover 0 0 [0; 1] ∅
      (useStoreData ab empty_world).2.
Proof.
  intros Hall.
  destruct (set remover 10 0 0 ∅
              (subscribe_all 0 [0; 1] (useStoreData ab empty_world).2))
    as [w'|] eqn:Hrun; [|vm_compute in Hrun; discriminate].
  specialize (Hall 10 w' Hrun).
  vm_compute in Hrun. injection Hrun as <-.
  vm_compute in Hall. discriminate Hall.
Qed.

(** C10, amended.  Subscribing a sequence of call-backs appends them to
    the registry in the order of their first subscription (the order
    they were subscribed, when the store was new and they are distinct).
    A [set] made then runs a round over the call-backs in exactly that
    order, provided no call-back unsubscribes during the notification:
    when the call-backs only read, the [set] returns and the round is
    over exactly these call-backs; when they do more, but never
    unsubscribe, a [set] that returns has run their bodies in that
    order before those of the call-backs subscribed meanwhile. *)
Theorem notification_in_subscription_order env d a cbs value w :
  registered a (subscribe_all a cbs w) = append_new (registered a w) cbs ∧
  (registered a w = [] → NoDup cbs →
   registered a (subscribe_all a cbs w) = cbs) ∧
  ((∀ cb, cb ∈ registered a (subscribe_all a cbs w) → reader (env cb)) →
   ∃ fuel w',
     set env fuel d a value (subscribe_all a cbs w) = Some w' ∧
     calls a d (new_events (subscribe_all a cbs w) w')
     = append_new (registered a w) cbs ∧
     round env a d (append_new (registered a w) cbs)
       (assign a value (subscribe_all a cbs w)) w') ∧
  ((∀ cb, no_unsubscribe (env cb)) →
   ∀ fuel w',
     set env fuel d a value (subscribe_all a cbs w) = Some w' →
     append_new (registered a w) cbs
     `prefix_of` calls a d (new_events (subscribe_all a cbs w) w') ∧
     round env a d (calls a d (new_events (subscribe_all a cbs w) w'))
       (assign a value (subscribe_all a cbs w)) w').
Proof.
  split_and!.
  - apply registered_subscribe_all.
  - intros Hnil Hnd. rewrite registered_subscribe_all, Hnil.
    by apply (append_new_fresh []).
  - intros Hread.
    destruct (readers_calls env d a value _ Hread)
      as (fuel & w' & Hset & Hcalls).
    exists fuel, w'. split; [done|].
    rewrite <-registered_subscribe_all, <-Hcalls.
    split; [done|]. by eapply set_round.
  - intros Henv fuel w' Hset. split; [|by eapply set_round].
    apply exec_eval in Hset. rewrite <-registered_subscribe_all.
    by apply (set_adds_only env d a value _ w' Henv).
Qed.

(** Call-backs 4, 2 and 9, which read the store, subscribed in that
    order to a new store: the [set] runs their bodies in that order. *)
Lemma notification_in_subscription_order_witness :
  registered 0 (useStoreData ab empty_world).2 = [] ∧
  NoDup [4; 2; 9] ∧
  (∀ cb, cb ∈ registered 0
           (subscribe_all 0 [4; 2; 9] (useStoreData ab empty_world).2) →
         reader (observer cb)) ∧
  (∀ cb, no_unsubscribe (observer cb)) ∧
  ∃ fuel w',
    set observer fuel 0 0 ∅
      (subscribe_all 0 [4; 2; 9] (useStoreData ab empty_world).2) = Some w' ∧
    round observer 0 0 [4; 2; 9]
      (assign 0 ∅ (subscribe_all 0 [4; 2; 9] (useStoreData ab empty_world).2))
      w' ∧
    new_events (subscribe_all 0 [4; 2; 9] (useStoreData ab empty_world).2) w'
    = [EvMerge 0 ab; EvCall 0 0 4; EvGet 0 ab; EvCall 0 0 2; EvGet 0 ab;
       EvCall 0 0 9; EvGet 0 ab].
Proof.
  assert (∀ cb, cb ∈ registered 0
            (subscribe_all 0 [4; 2; 9] (useStoreData ab empty_world).2) →
          reader (observer cb)) as Hread by (intros; repeat constructor).
  destruct (notification_in_subscription_order observer 0 0 [4; 2; 9] ∅
              (useStoreData ab empty_world).2) as (_ & _ & Hset & _).
  split; [vm_compute; reflexivity|].
  split; [apply (bool_decide_unpack (NoDup [4; 2; 9])); vm_compute; exact I|].
  split; [exact Hread|]. split; [intros; repeat constructor|].
  destruct (Hset Hread) as (fuel & w' & Hrun & _ & Hround).
  exists fuel, w'. split; [exact Hrun|]. split; [exact Hround|].
  destruct (set observer 10 0 0 ∅
              (subscribe_all 0 [4; 2; 9] (useStoreData ab empty_world).2))
    as [w0|] eqn:Hten; [|vm_compute in Hten; discriminate].
  rewrite (set_unique _ _ _ _ _ _ _ _ _ Hrun Hten).
  vm_compute in Hten. injection Hten as <-. vm_compute. reflexivity.
Defined.
